(** * Type generation for route parameters: [typegen/index.ts]

    A shallow embedding of [packages/react-router-dev/typegen/index.ts]
    and the properties its specification states about it.

    The module drives the generation of declaration files: it loads a
    configuration snapshot, writes one declaration file per route plus
    two global files, and regenerates them when the configuration
    loader reports a change.

    Layout of the development:
    - [Js]      results, exceptions and the few JavaScript values used;
    - [Fs]      the part of [node:fs] the module calls, over a finite
                map from paths to nodes, and what makes such a map a
                well-formed disk;
    - [Params]  the path pattern parser, [typegen/params.ts];
    - [Io]      the world: a well-formed disk, the trace of file
                system calls, the logger;
    - [Typegen] the module itself, over its imported helpers;
    - [Route]   the lineage resolver, [typegen/route.ts];
    - [Sample]  an instance of the helpers and a small project;
    - the notions the properties are stated with, then the
      properties, one block per component. *)

From Stdlib Require Import Ascii.
From stdpp Require Import base option list gmap strings.

(* ===================================================================== *)
(** * JavaScript values and control flow *)
(* ===================================================================== *)

Module Js.

(** Error codes of the system calls behind [node:fs]. *)
Variant Errno := ENOENT | EEXIST | ENOTDIR | EISDIR.

(** What a [throw] carries: [new Error(message)], or the error of a
    failed file system call with its code and path. *)
Variant Exn :=
| Error (message : string)
| SystemError (code : Errno) (at_path : list string).

(** The outcome of a call: it returns a value or it throws. *)
Inductive Res (A : Type) : Type :=
| Ret (a : A)
| Throw (e : Exn).
Arguments Ret {A} a.
Arguments Throw {A} e.

#[export] Instance Res_ret : MRet Res := λ A a, Ret a.
#[export] Instance Res_bind : MBind Res := λ A B f m,
  match m with
  | Ret a => f a
  | Throw e => Throw e
  end.

(** The [{ ok: true, value } | { ok: false, error }] union the
    configuration loader returns. *)
Variant Result (V E : Type) : Type :=
| Ok (value : V)
| Err (error : E).
Arguments Ok {V E} value.
Arguments Err {V E} error.

(** [Array.prototype.forEach] and a left fold, for callbacks that may
    throw: the first exception ends the iteration. *)
Fixpoint foldM {A S : Type} (f : S → A → Res S) (s : S) (l : list A) : Res S :=
  match l with
  | [] => Ret s
  | x :: l' => s' ← f s x; foldM f s' l'
  end.

(** A [Set<string>]: its elements in insertion order. [add] of a
    member leaves the set as it is. *)
Abbreviation StringSet := (list string).

Definition Set_new : StringSet := [].

Definition Set_add (x : string) (s : StringSet) : StringSet :=
  if bool_decide (x ∈ s) then s else s ++ [x].

Definition Array_from (s : StringSet) : list string := s.

(** The double quote and the line feed, and [Array.prototype.join]. *)
Definition dq : string := String "034"%char EmptyString.
Definition nl : string := String "010"%char EmptyString.

Definition join (sep : string) (l : list string) : string :=
  String.concat sep l.

(** [String.prototype.split] on a one-character separator. *)
Fixpoint split (sep : ascii) (s : string) : list string :=
  match s with
  | EmptyString => [EmptyString]
  | String c s' =>
      if bool_decide (c = sep) then EmptyString :: split sep s'
      else match split sep s' with
           | seg :: segs => String c seg :: segs
           | [] => [String c EmptyString]
           end
  end.

(** A boolean spliced into a template literal. *)
Definition String_of_boolean (b : bool) : string :=
  if b then "true" else "false".

End Js.
Export Js.

(* ===================================================================== *)
(** * The file system *)
(* ===================================================================== *)

Module Fs.

(** A path is the list of its components below the file system root,
    which is [[]]; [pathe]'s [join] and [dirname] act on it. *)
Abbreviation Path := (list string).

(** The components of a path written with slashes. *)
Definition Path_of (s : string) : Path :=
  filter (λ c, c ≠ EmptyString) (split "/" s).

Definition Path_join (dir : Path) (name : string) : Path := dir ++ [name].
Definition Path_dirname (p : Path) : Path := removelast p.

Variant Node :=
| File (content : string)
| Dir.

#[export] Instance Node_eq_dec : EqDecision Node.
Proof. solve_decision. Defined.

Abbreviation Disk := (gmap (list string) Node).

(** The calls the module makes, as it makes them. *)
Variant Call :=
| RmSync (p : Path)
| MkdirSync (p : Path)
| WriteFileSync (p : Path) (content : string).

(** What is at a path. The root always is a directory. *)
Definition kind (d : Disk) (p : Path) : option Node :=
  match p with
  | [] => Some Dir
  | _ => d !! p
  end.

Definition is_file (d : Disk) (p : Path) : bool :=
  match kind d p with
  | Some (File _) => true
  | _ => false
  end.

Definition is_dir (d : Disk) (p : Path) : bool :=
  match kind d p with
  | Some Dir => true
  | _ => false
  end.

(** The path itself and its ancestors, the root left out. *)
Definition chain (p : Path) : list Path :=
  (λ n, take n p) <$> seq 1 (length p).

(** Everything at and below [p] taken off the disk. *)
Definition prune (p : Path) (d : Disk) : Disk :=
  filter (λ kv, ¬ p `prefix_of` kv.1) d.

(** Whether a regular file stands where a directory above [p] should
    be. *)
Definition blocked (d : Disk) (p : Path) : bool :=
  existsb (is_file d) (chain (Path_dirname p)).

(** [fs.rmSync(p, { recursive: true, force: true })]: everything at
    and below [p] goes. With [force], nothing being there is no
    error; a regular file in the way to [p] still is one. *)
Definition rm (p : Path) (d : Disk) : Res Disk :=
  if blocked d p then Throw (SystemError ENOTDIR p)
  else Ret (prune p d).

(** [fs.mkdirSync(p, { recursive: true })]: fails on a file in the
    way, else every missing directory down to [p] is created. *)
Definition mkdir (p : Path) (d : Disk) : Res Disk :=
  if existsb (is_file d) (chain p)
  then Throw (SystemError (if is_file d p then EEXIST else ENOTDIR) p)
  else Ret (foldr (λ q m, <[q := Dir]> m) d (chain p)).

(** [fs.writeFileSync(p, content)]: the parent has to be a directory
    and [p] must not be one; the file is created or replaced. Without
    the parent the error tells a regular file in the way from a
    directory that is missing. *)
Definition write (p : Path) (content : string) (d : Disk) : Res Disk :=
  if is_dir d p then Throw (SystemError EISDIR p)
  else if is_dir d (Path_dirname p) then Ret (<[p := File content]> d)
  else Throw (SystemError (if blocked d p then ENOTDIR else ENOENT) p).

Definition exec (c : Call) (d : Disk) : Res Disk :=
  match c with
  | RmSync p => rm p d
  | MkdirSync p => mkdir p d
  | WriteFileSync p content => write p content d
  end.

(** The disk a call leaves: that of [exec] when the call returns, the
    one it found when it throws. *)
Definition after (c : Call) (d : Disk) : Disk :=
  match exec c d with
  | Ret d' => d'
  | Throw _ => d
  end.

(** A disk is well formed when whatever it holds lies in a directory;
    so everything above an entry is a directory, and nothing lies
    below a regular file. *)
Definition well_formed (d : Disk) : Prop :=
  ∀ p, is_Some (d !! p) → is_dir d (Path_dirname p) = true.

(** Calls keep the disk well formed. *)
Definition after_well_formed (c : Call) (d : Disk) :
  well_formed d → well_formed (after c d).
Proof.
  assert (∀ l : Path, removelast l `prefix_of` l) as Hparent.
  { intros l. destruct l as [|a l _] using rev_ind; [done|].
    rewrite removelast_last. by exists [a]. }
  assert (∀ p q : Path, q ∈ chain p ↔ q ≠ [] ∧ q `prefix_of` p) as Hchain.
  { intros p q. unfold chain. rewrite list_elem_of_fmap. split.
    - intros (n&->&[Hn1 Hn2]%elem_of_seq). split.
      + destruct p, n; simpl in *; try done; lia.
      + exists (drop n p). by rewrite take_drop.
    - intros [Hne [k ->]]. exists (length q). split.
      + by rewrite take_app_length.
      + apply elem_of_seq. rewrite length_app. destruct q; simpl in *; [done|lia]. }
  assert (∀ (l : list Path) q, foldr (λ q m, <[q := Dir]> m) d l !! q
            = if decide (q ∈ l) then Some Dir else d !! q) as Hmk.
  { intros l q. induction l as [|a l IH]; cbn [foldr].
    - by destruct (decide (q ∈ [])) as [?%elem_of_nil|].
    - destruct (decide (a = q)) as [->|Hne].
      + rewrite lookup_insert_eq. destruct (decide (q ∈ q :: l)) as [|Hn]; [done|].
        destruct Hn. left.
      + rewrite lookup_insert_ne by done. rewrite IH.
        destruct (decide (q ∈ l)), (decide (q ∈ a :: l)) as [Hin|Hn]; try done.
        * destruct Hn. by right.
        * by apply elem_of_cons in Hin as [?|?]. }
  assert (∀ d' : Disk, ∀ q a r,
            removelast q = a :: r → d' !! (a :: r) = Some Dir →
            is_dir d' (Path_dirname q) = true) as Hdir.
  { intros d' q a r Hr Hd. unfold is_dir, kind, Path_dirname. by rewrite Hr, Hd. }
  assert (∀ q a r x,
            well_formed d → d !! q = Some x → removelast q = a :: r →
            d !! (a :: r) = Some Dir) as Hup.
  { intros q a r x Hwf Hx Hr. specialize (Hwf q (mk_is_Some _ _ Hx)).
    unfold is_dir, kind, Path_dirname in Hwf. rewrite Hr in Hwf.
    by destruct (d !! (a :: r)) as [[]|]. }
  intros Hwf. unfold after. destruct c as [p|p|p content]; cbn [exec].
  - unfold rm. destruct (blocked d p); [done|].
    intros q [x [Hx Hq]%map_lookup_filter_Some]. cbn in Hq.
    destruct (removelast q) as [|a r] eqn:Hr.
    { unfold is_dir, kind, Path_dirname. by rewrite Hr. }
    apply (Hdir _ q a r Hr). apply map_lookup_filter_Some_2; [by eapply Hup|].
    cbn. intros Hp. apply Hq. etrans; [done|]. rewrite <- Hr. apply Hparent.
  - unfold mkdir. destruct (existsb (is_file d) (chain p)); [done|].
    intros q [x Hx]. rewrite Hmk in Hx.
    destruct (removelast q) as [|a r] eqn:Hr.
    { unfold is_dir, kind, Path_dirname. by rewrite Hr. }
    apply (Hdir _ q a r Hr). rewrite Hmk.
    destruct (decide (a :: r ∈ chain p)) as [|Hout]; [done|].
    destruct (decide (q ∈ chain p)) as [Hin|_]; [|by eapply Hup].
    destruct Hout. apply Hchain in Hin as [_ Hin]. apply Hchain. split; [done|].
    etrans; [|done]. rewrite <- Hr. apply Hparent.
  - unfold write. destruct (is_dir d p) eqn:Hp; [done|].
    destruct (is_dir d (Path_dirname p)) eqn:Hpp; [|done].
    intros q [x Hx].
    destruct (removelast q) as [|a r] eqn:Hr.
    { unfold is_dir, kind, Path_dirname. by rewrite Hr. }
    apply (Hdir _ q a r Hr).
    assert (p ≠ a :: r) as Hne.
    { intros ->. destruct (decide (a :: r = q)) as [<-|Hq].
      - clear -Hr. remember (a :: r) as l eqn:El. rename Hr into Hl.
        destruct l as [|y l _] using rev_ind; [done|].
        rewrite removelast_last in Hl. apply (f_equal length) in Hl.
        rewrite length_app in Hl. cbn in Hl. lia.
      - rewrite lookup_insert_ne in Hx by done.
        pose proof (Hup q a r x Hwf Hx Hr) as Hd.
        unfold is_dir, kind in Hp. by rewrite Hd in Hp. }
    rewrite lookup_insert_ne by done.
    destruct (decide (p = q)) as [->|Hq].
    + unfold is_dir, kind, Path_dirname in Hpp. rewrite Hr in Hpp.
      by destruct (d !! (a :: r)) as [[]|].
    + rewrite lookup_insert_ne in Hx by done. by eapply Hup.
Qed.

End Fs.
Export Fs.

(* ===================================================================== *)
(** * The path pattern parser, [typegen/params.ts] *)
(* ===================================================================== *)

Module Params.

(** A [Record<string, boolean>]: its entries in property order. An
    assignment to a present key keeps the key's place. *)
Abbreviation Entries := (list (string * bool)).

Fixpoint assign (k : string) (v : bool) (o : Entries) : Entries :=
  match o with
  | [] => [(k, v)]
  | (k', v') :: o' =>
      if bool_decide (k = k') then (k, v) :: o' else (k', v') :: assign k v o'
  end.

Fixpoint get (k : string) (o : Entries) : option bool :=
  match o with
  | [] => None
  | (k', v') :: o' => if bool_decide (k = k') then Some v' else get k o'
  end.

Definition keys (o : Entries) : list string := o.*1.

(** A string without one trailing question mark, and whether it had
    one. *)
Fixpoint strip_optional (s : string) : string * bool :=
  match s with
  | EmptyString => (EmptyString, false)
  | String c EmptyString =>
      if bool_decide (c = "?"%char) then (EmptyString, true) else (s, false)
  | String c s' =>
      let '(r, q) := strip_optional s' in (String c r, q)
  end.

(** Modelled from the spec: what one segment declares. [params.ts] is
    not among the sources at hand; this follows the grammar of the
    specification's section 4.1 clause by clause. A segment beginning
    with a colon declares the parameter named by the rest of the
    segment less a trailing question mark, optional when the mark is
    there; the segment [*] declares the required parameter [*]; any
    other segment, the empty one among them, declares nothing. *)
Definition segment_param (seg : string) : option (string * bool) :=
  match seg with
  | String ":" rest =>
      let '(name, optional) := strip_optional rest in
      Some (name, negb optional)
  | String "*" EmptyString => Some ("*", true)
  | _ => None
  end.

(** Modelled from the spec: [parse], absent like the rest of
    [params.ts]. The segments between slashes are scanned in path
    order; each declaration is assigned into the result, so a name
    is listed once, at the place of its first appearance, with the
    flag of its last one. *)
Definition parse (fullpath : string) : Entries :=
  foldl (λ result segment,
           match segment_param segment with
           | Some (param, isRequired) => assign param isRequired result
           | None => result
           end)
        [] (split "/" fullpath).

End Params.

(* ===================================================================== *)
(** * The world the module acts on *)
(* ===================================================================== *)

Module Io.

(** [picocolors] output and what [vite]'s logger is handed. *)
Variant Styled :=
| green (s : string)
| red (s : string).

Variant Level := Info | Failure.

Record LogOptions := { timestamp : bool; clear : bool }.

Record LogLine := { level : Level; text : Styled; options : LogOptions }.

(** The disk, which is well formed, the file system calls made so
    far (oldest first), and the lines handed to the logger so far. *)
Record World := {
  disk : Disk;
  trace : list Call;
  console : list LogLine;
  disk_ok : well_formed disk;
}.

(** A computation that acts on the world and returns or throws. *)
Definition IO (A : Type) : Type := World → Res A * World.

#[export] Instance IO_ret : MRet IO := λ A a w, (Ret a, w).
#[export] Instance IO_bind : MBind IO := λ A B f m w,
  match m w with
  | (Ret a, w') => f a w'
  | (Throw e, w') => (Throw e, w')
  end.

(** A call that may throw without touching the world. *)
Definition pure {A : Type} (r : Res A) : IO A := λ w, (r, w).

(** One file system call: it is recorded and carried out; when it
    fails the disk stays as it was. *)
Definition call (c : Call) : IO unit := λ w,
  (match exec c (disk w) with
   | Ret _ => Ret ()
   | Throw e => Throw e
   end,
   {| disk := after c (disk w);
      trace := trace w ++ [c];
      console := console w;
      disk_ok := after_well_formed c (disk w) (disk_ok w) |}).

Definition fs_rmSync (p : Path) : IO unit := call (RmSync p).
Definition fs_mkdirSync (p : Path) : IO unit := call (MkdirSync p).
Definition fs_writeFileSync (p : Path) (content : string) : IO unit :=
  call (WriteFileSync p content).

Fixpoint forEach {A : Type} (l : list A) (f : A → IO unit) : IO unit :=
  match l with
  | [] => mret ()
  | x :: l' => f x;; forEach l' f
  end.

(** The optional logger: [logger?.info(..)] and [logger?.error(..)]
    do nothing when there is none. *)
Variant Logger := ViteLogger.

Definition log (logger : option Logger) (l : Level) (msg : Styled)
    (opts : LogOptions) : IO unit := λ w,
  match logger with
  | Some _ =>
      (Ret (), {| disk := disk w; trace := trace w;
                  console := console w ++ [{| level := l; text := msg; options := opts |}];
                  disk_ok := disk_ok w |})
  | None => (Ret (), w)
  end.

Definition logger_info (logger : option Logger) := log logger Info.
Definition logger_error (logger : option Logger) := log logger Failure.

End Io.
Export Io.

(* ===================================================================== *)
(** * [typegen/index.ts] *)
(* ===================================================================== *)

Module Typegen.

(** ** The configuration snapshot *)

(** An entry of the route manifest. [route_path] is [None] for
    [undefined]. *)
Record RouteManifestEntry := {
  route_id : string;
  route_parentId : option string;
  route_path : option string;
  route_file : string;
}.

(** The manifest, a [Record<string, RouteManifestEntry>], as the list
    of its properties in enumeration order. *)
Abbreviation RouteManifest := (list (string * RouteManifestEntry)).

Definition Object_values (routes : RouteManifest) : list RouteManifestEntry :=
  routes.*2.

Record FutureConfig := { unstable_middleware : bool }.

Record ResolvedReactRouterConfig := {
  routes : RouteManifest;
  future : FutureConfig;
}.

(** The configuration loader, as far as this module reads from it:
    what [getConfig()] resolves to. *)
Record ConfigLoader := {
  getConfig : Result ResolvedReactRouterConfig string;
}.

Record Context := {
  configLoader : ConfigLoader;
  rootDirectory : string;
  config : ResolvedReactRouterConfig;
}.

(** What the loader hands to an [onChange] listener. *)
Record ChangeEvent := {
  result : Result ResolvedReactRouterConfig string;
  configChanged : bool;
  routeConfigChanged : bool;
}.

(** ** The syntax tree handed to Babel *)

(** The nodes [register] builds with [Babel.t]. [optional] is [None]
    on a property signature as the builder leaves it. *)
Variant Identifier := identifier (name : string).
Variant StringLiteral := stringLiteral (value : string).

Inductive TSType :=
| tsStringKeyword
| tsTypeLiteral (members : list TSPropertySignature)
with TSTypeAnnotation :=
| tsTypeAnnotation (typeAnnotation : TSType)
with TSPropertySignature :=
| tsPropertySignature (key : StringLiteral) (typeAnnotation : TSTypeAnnotation)
    (optional : option bool).

Variant TSTypeAliasDeclaration :=
| tsTypeAliasDeclaration (id : Identifier) (typeParameters : option (list string))
    (typeAnnotation : TSType).

(** [property.optional = b]. *)
Definition set_optional (b : bool) (p : TSPropertySignature) : TSPropertySignature :=
  match p with
  | tsPropertySignature k t _ => tsPropertySignature k t (Some b)
  end.

(** The keys of a type literal and of the literal an alias stands
    for, in the order of its members. *)
Definition signature_key (p : TSPropertySignature) : string :=
  match p with
  | tsPropertySignature (stringLiteral k) _ _ => k
  end.

Definition literal_keys (t : TSType) : list string :=
  match t with
  | tsStringKeyword => []
  | tsTypeLiteral members => signature_key <$> members
  end.

Definition alias_keys (d : TSTypeAliasDeclaration) : list string :=
  match d with
  | tsTypeAliasDeclaration _ _ t => literal_keys t
  end.

(** ** The imported helpers *)

(** Modelled from the spec: where the declaration files go.
    [./paths], which decides it, is not among the sources. By the
    specification's section 6 the declaration file of every route is
    produced in the output directory: the directory it lies in is the
    output directory or lies below it. *)
Definition inside_output_directory
    (getTypesDir : Context → Path)
    (getTypesPath : Context → RouteManifestEntry → Path) : Prop :=
  ∀ ctx route, getTypesDir ctx `prefix_of` Path_dirname (getTypesPath ctx route).

(** The functions the module imports from its siblings, none of which
    is defined in [index.ts]: [./paths], [./generate], [./route],
    [./params], [../vite/babel] and [../config/config]. The module is
    modelled over any such functions that put the declaration files
    into the output directory; [generate] and [Route.lineage] may
    throw. *)
Class Imports := {
  getTypesDir : Context → Path;
  getTypesPath : Context → RouteManifestEntry → Path;
  generate : Context → RouteManifestEntry → Res string;
  Route_lineage : RouteManifest → RouteManifestEntry → Res (list RouteManifestEntry);
  Route_fullpath : list RouteManifestEntry → string;
  Params_parse : string → Params.Entries;
  Babel_generate : TSTypeAliasDeclaration → string;
  createConfigLoader : string → string → bool → ConfigLoader;
  getTypesPath_inside : inside_output_directory getTypesDir getTypesPath;
}.

(** ** The module *)

Section code.

Context `{Imports}.

(** The static declaration of the server build module, after
    [dedent]. *)
Definition virtual : string :=
  join nl [
    "declare module " +:+ dq +:+ "virtual:react-router/server-build" +:+ dq +:+ " {";
    "  import { ServerBuild } from " +:+ dq +:+ "react-router" +:+ dq +:+ ";";
    "  export const assets: ServerBuild[" +:+ dq +:+ "assets" +:+ dq +:+ "];";
    "  export const assetsBuildDirectory: ServerBuild[" +:+ dq +:+ "assetsBuildDirectory" +:+ dq +:+ "];";
    "  export const basename: ServerBuild[" +:+ dq +:+ "basename" +:+ dq +:+ "];";
    "  export const entry: ServerBuild[" +:+ dq +:+ "entry" +:+ dq +:+ "];";
    "  export const future: ServerBuild[" +:+ dq +:+ "future" +:+ dq +:+ "];";
    "  export const isSpaMode: ServerBuild[" +:+ dq +:+ "isSpaMode" +:+ dq +:+ "];";
    "  export const prerender: ServerBuild[" +:+ dq +:+ "prerender" +:+ dq +:+ "];";
    "  export const publicPath: ServerBuild[" +:+ dq +:+ "publicPath" +:+ dq +:+ "];";
    "  export const routeDiscovery: ServerBuild[" +:+ dq +:+ "routeDiscovery" +:+ dq +:+ "];";
    "  export const routes: ServerBuild[" +:+ dq +:+ "routes" +:+ dq +:+ "];";
    "  export const ssr: ServerBuild[" +:+ dq +:+ "ssr" +:+ dq +:+ "];";
    "  export const unstable_getCriticalCss: ServerBuild[" +:+ dq +:+ "unstable_getCriticalCss" +:+ dq +:+ "];";
    "}"
  ].

(** The template literal at the head of [register], after
    [dedent]. *)
Definition register_header (ctx : Context) : string :=
  join nl [
    "import " +:+ dq +:+ "react-router" +:+ dq +:+ ";";
    "";
    "declare module " +:+ dq +:+ "react-router" +:+ dq +:+ " {";
    "  interface Register {";
    "    params: Params;";
    "  }";
    "";
    "  interface Future {";
    "    unstable_middleware: "
      +:+ String_of_boolean (unstable_middleware (future (config ctx)));
    "  }";
    "}"
  ].

(** [!route.path]: the path is [undefined] or the empty string. *)
Definition not_path (path : option string) : bool :=
  match path with
  | None => true
  | Some s => bool_decide (s = "")
  end.

(** The callback of the [forEach] in [register], on the set it
    grows. *)
Definition register_visit (ctx : Context) (fullpaths : StringSet)
    (route : RouteManifestEntry) : Res StringSet :=
  if bool_decide (route_id route ≠ "root") && not_path (route_path route)
  then mret fullpaths
  else
    lineage ← Route_lineage (routes (config ctx)) route;
    let fullpath := Route_fullpath lineage in
    mret (Set_add fullpath fullpaths).

(** The set [fullpaths] once the [forEach] is through. *)
Definition register_fullpaths (ctx : Context) : Res StringSet :=
  foldM (register_visit ctx) Set_new (Object_values (routes (config ctx))).

(** The declaration [typeParams] built from the set. *)
Definition register_typeParams (fullpaths : StringSet) : TSTypeAliasDeclaration :=
  tsTypeAliasDeclaration
    (identifier "Params")
    None
    (tsTypeLiteral
       ((λ fullpath,
           let params := Params_parse fullpath in
           tsPropertySignature
             (stringLiteral fullpath)
             (tsTypeAnnotation
                (tsTypeLiteral
                   ((λ '(param, isRequired),
                       let property :=
                         tsPropertySignature
                           (stringLiteral param)
                           (tsTypeAnnotation tsStringKeyword)
                           None in
                       set_optional (negb isRequired) property)
                    <$> params)))
             None)
        <$> Array_from fullpaths)).

Definition register (ctx : Context) : Res string :=
  let register := register_header ctx in
  fullpaths ← register_fullpaths ctx;
  let typeParams := register_typeParams fullpaths in
  mret (join (nl +:+ nl) [register; Babel_generate typeParams]).

Definition writeAll (ctx : Context) : IO unit :=
  let typegenDir := getTypesDir ctx in
  fs_rmSync typegenDir;;
  forEach (Object_values (routes (config ctx))) (λ route,
    let typesPath := getTypesPath ctx route in
    content ← pure (generate ctx route);
    fs_mkdirSync (Path_dirname typesPath);;
    fs_writeFileSync typesPath content);;
  let registerPath := Path_join typegenDir "+register.ts" in
  content ← pure (register ctx);
  fs_writeFileSync registerPath content;;
  let virtualPath := Path_join typegenDir "+virtual.d.ts" in
  fs_writeFileSync virtualPath virtual.

Definition createContext (rootDirectory : string) (watch : bool) (mode : string)
    : IO Context :=
  let configLoader := createConfigLoader rootDirectory mode watch in
  let configResult := getConfig configLoader in
  match configResult with
  | Err error => pure (Throw (Error error))
  | Ok value =>
      mret {| configLoader := configLoader;
              rootDirectory := rootDirectory;
              config := value |}
  end.

Definition run (rootDirectory : string) (mode : string) : IO unit :=
  ctx ← createContext rootDirectory false mode;
  writeAll ctx.

(** [watch] up to the subscription. It returns the context the
    listener handed to [onChange] closes over; the [Watcher] itself
    only wraps the loader's [close]. *)
Definition watch (rootDirectory : string) (mode : string)
    (logger : option Logger) : IO Context :=
  ctx ← createContext rootDirectory true mode;
  writeAll ctx;;
  logger_info logger (green "generated types")
    {| timestamp := true; clear := true |};;
  mret ctx.

(** The state a listener runs in: the context object it shares with
    [watch], whose [config] it assigns, and the world. *)
Record Session := {
  ctx : Context;
  world : World;
}.

Definition assign_config (value : ResolvedReactRouterConfig) (c : Context) : Context :=
  {| configLoader := configLoader c;
     rootDirectory := rootDirectory c;
     config := value |}.

(** The listener [watch] hands to [ctx.configLoader.onChange]. An
    exception of [writeAll] leaves the assignment to [ctx.config]
    in place. *)
Definition onChange (logger : option Logger) (ev : ChangeEvent) (s : Session)
    : Res unit * Session :=
  match result ev with
  | Err error =>
      let '(r, w) :=
        logger_error logger (red error)
          {| timestamp := true; clear := true |} (world s) in
      (r, {| ctx := ctx s; world := w |})
  | Ok value =>
      let ctx' := assign_config value (ctx s) in
      if configChanged ev || routeConfigChanged ev then
        let '(r, w) :=
          (writeAll ctx';;
           logger_info logger (green "regenerated types")
             {| timestamp := true; clear := true |}) (world s) in
        (r, {| ctx := ctx'; world := w |})
      else (Ret (), {| ctx := ctx'; world := world s |})
  end.

End code.

End Typegen.
Export Typegen.

(* ===================================================================== *)
(** * The route lineage resolver, [typegen/route.ts] *)
(* ===================================================================== *)

Module Route.

(** [routes[id]]. *)
Fixpoint lookup (id : string) (routes : RouteManifest) : option RouteManifestEntry :=
  match routes with
  | [] => None
  | (k, r) :: routes' => if bool_decide (id = k) then Some r else lookup id routes'
  end.

(** The identifiers above [id], nearest last: the identifier less its
    last component, and so on; the root is not listed. *)
Definition ancestor_ids (id : string) : list string :=
  let components := split "/" id in
  (λ n, join "/" (take n components)) <$> seq 1 (length components - 1).

(** Modelled from the spec: [Route.lineage], whose file [route.ts] is
    not among the sources at hand. By the specification's section 4.2
    the parent of a route is named by the route's identifier less its
    last component, or is the root when there is none; the chain runs
    from the root to the route, and a parent missing from the tree is
    a fatal error. *)
Definition lineage (routes : RouteManifest) (route : RouteManifestEntry)
    : Res (list RouteManifestEntry) :=
  if bool_decide (route_id route = "root") then Ret [route]
  else
    ancestors ← foldM (λ acc id,
                   match lookup id routes with
                   | Some r => Ret (acc ++ [r])
                   | None => Throw (Error ("Route not found: " +:+ id))
                   end)
                 [] ("root" :: ancestor_ids (route_id route));
    mret (ancestors ++ [route]).

(** Runs of slashes made one slash. *)
Fixpoint squeeze (s : string) : string :=
  match s with
  | EmptyString => EmptyString
  | String c s' =>
      match c, s' with
      | "/"%char, String "/" _ => squeeze s'
      | _, _ => String c (squeeze s')
      end
  end.

(** Modelled from the spec: [Route.fullpath], absent with [route.ts].
    By section 4.2 it joins the path segments of the lineage with a
    slash, leaves out the members without a segment and avoids
    duplicate separators. *)
Definition fullpath (lineage : list RouteManifestEntry) : string :=
  squeeze (join "/" (filter (λ p, p ≠ EmptyString) (omap route_path lineage))).

End Route.

(* ===================================================================== *)
(** * A sample project *)
(* ===================================================================== *)

(** An instance of the imports and a small project to run the module
    on. What the theorems state holds for every instance; this one
    serves the worked examples. The output directory and the
    per-route template are placeholders: the specification leaves
    both to the implementation. *)
Module Sample.

Definition root_route : RouteManifestEntry :=
  {| route_id := "root"; route_parentId := None;
     route_path := Some ""; route_file := "root.tsx" |}.

Definition layout_route : RouteManifestEntry :=
  {| route_id := "blog"; route_parentId := Some "root";
     route_path := None; route_file := "blog.tsx" |}.

Definition post_route : RouteManifestEntry :=
  {| route_id := "blog/post"; route_parentId := Some "blog";
     route_path := Some "posts/:slug"; route_file := "blog/post.tsx" |}.

Definition alias_route : RouteManifestEntry :=
  {| route_id := "alias"; route_parentId := Some "root";
     route_path := Some "posts/:slug"; route_file := "alias.tsx" |}.

Definition files_route : RouteManifestEntry :=
  {| route_id := "files"; route_parentId := Some "root";
     route_path := Some "files/*"; route_file := "files.tsx" |}.

Definition manifest : RouteManifest :=
  [("root", root_route); ("blog", layout_route); ("blog/post", post_route);
   ("alias", alias_route); ("files", files_route)].

Definition sample_config : ResolvedReactRouterConfig :=
  {| routes := manifest; future := {| unstable_middleware := false |} |}.

Definition other_config : ResolvedReactRouterConfig :=
  {| routes := [("root", root_route); ("files", files_route)];
     future := {| unstable_middleware := true |} |}.

(** A printer for the alias, enough to tell its parts apart. *)
Definition print_property (p : TSPropertySignature) : string :=
  match p with
  | tsPropertySignature (stringLiteral k) _ o =>
      dq +:+ k +:+ dq +:+ (if o is Some true then "?" else "") +:+ ": string;"
  end.

Definition print_alias (d : TSTypeAliasDeclaration) : string :=
  match d with
  | tsTypeAliasDeclaration (identifier name) _ t =>
      "type " +:+ name +:+ " = {" +:+
      join " "
        (match t with
         | tsStringKeyword => []
         | tsTypeLiteral members =>
             (λ p,
                match p with
                | tsPropertySignature (stringLiteral k) (tsTypeAnnotation t') _ =>
                    dq +:+ k +:+ dq +:+ ": {" +:+
                    join " "
                      (match t' with
                       | tsStringKeyword => []
                       | tsTypeLiteral inner => print_property <$> inner
                       end)
                    +:+ "};"
                end) <$> members
         end)
      +:+ "};"
  end.

(** The loader of a directory: [/app] holds the sample configuration,
    any other directory fails to load. *)
Definition loader (rootDirectory mode : string) (watch : bool) : ConfigLoader :=
  {| getConfig :=
       if bool_decide (rootDirectory = "/app") then Ok sample_config
       else Err "Could not find a root route module" |}.

Definition typesDir (ctx : Context) : Path :=
  Path_of (rootDirectory ctx) ++ [".react-router"; "types"].

Definition typesPath (ctx : Context) (route : RouteManifestEntry) : Path :=
  let file := Path_of (route_file route) in
  typesDir ctx ++ ["app"] ++ removelast file
  ++ ["+types"; List.last file EmptyString +:+ ".d.ts"].

Definition typesPath_inside : inside_output_directory typesDir typesPath.
Proof.
  intros ctx route.
  unfold typesPath, Path_dirname.
  set (file := Path_of (route_file route)).
  set (name := List.last file EmptyString +:+ ".d.ts").
  replace (typesDir ctx ++ ["app"] ++ removelast file ++ ["+types"; name])
    with ((typesDir ctx ++ ["app"] ++ removelast file ++ ["+types"]) ++ [name])
    by (by rewrite <- !app_assoc).
  rewrite removelast_last. by eexists.
Qed.

Definition imports : Imports :=
  {| getTypesDir := typesDir;
     getTypesPath := typesPath;
     generate := λ ctx route,
       lineage ← Route.lineage (routes (config ctx)) route;
       mret ("// " +:+ Route.fullpath lineage);
     Route_lineage := Route.lineage;
     Route_fullpath := Route.fullpath;
     Params_parse := Params.parse;
     Babel_generate := print_alias;
     createConfigLoader := loader;
     getTypesPath_inside := typesPath_inside |}.

Definition sample_ctx : Context :=
  {| configLoader := loader "/app" "development" true;
     rootDirectory := "/app";
     config := sample_config |}.

Definition empty_disk_ok : well_formed ∅.
Proof. intros p [x Hx]. by rewrite lookup_empty in Hx. Qed.

Definition empty_world : World :=
  {| disk := ∅; trace := []; console := []; disk_ok := empty_disk_ok |}.

(** A disk on which [/app] exists and holds a stale output file. *)
Definition stale_disk : Disk :=
  {[ ["app"] := Dir;
     ["app"; ".react-router"] := Dir;
     ["app"; ".react-router"; "types"] := Dir;
     ["app"; ".react-router"; "types"; "old.d.ts"] := File "stale";
     ["app"; "package.json"] := File "{}" ]}.

Definition stale_disk_ok : well_formed stale_disk.
Proof.
  assert (map_Forall (λ p _, is_dir stale_disk (Path_dirname p) = true) stale_disk)
    as Hall by (apply (bool_decide_unpack _); vm_compute; exact I).
  intros p [x Hx]. exact (Hall p x Hx).
Qed.

Definition stale_world : World :=
  {| disk := stale_disk; trace := []; console := []; disk_ok := stale_disk_ok |}.

(** A disk on which a regular file stands where [/app] should be. *)
Definition blocked_disk : Disk := {[ ["app"] := File "not a directory" ]}.

Definition blocked_disk_ok : well_formed blocked_disk.
Proof.
  assert (map_Forall (λ p _, is_dir blocked_disk (Path_dirname p) = true) blocked_disk)
    as Hall by (apply (bool_decide_unpack _); vm_compute; exact I).
  intros p [x Hx]. exact (Hall p x Hx).
Qed.

Definition blocked_world : World :=
  {| disk := blocked_disk; trace := []; console := []; disk_ok := blocked_disk_ok |}.

End Sample.



(* ===================================================================== *)
(** * Notions the properties are stated with *)
(* ===================================================================== *)

(** What a segment declares, read off the grammar: [:name] declares
    [name] as required unless the name ends in a question mark,
    [:name?] declares [name] as optional, and [*] declares [*] as
    required. Nothing else declares anything. *)
Inductive declares : string → string → bool → Prop :=
| declares_required name :
    (∀ n, name ≠ n +:+ "?") → declares (":" +:+ name) name true
| declares_optional name :
    declares (":" +:+ name +:+ "?") name false
| declares_splat :
    declares "*" "*" true.

(** A route that adds its full path to the set: the root, or a route
    with a path that is not empty. *)
Definition contributes (route : RouteManifestEntry) : Prop :=
  route_id route = "root" ∨ ∃ s, route_path route = Some s ∧ s ≠ "".

#[export] Instance contributes_dec route : Decision (contributes route).
Proof.
  unfold contributes.
  destruct (decide (route_id route = "root")) as [|Hid]; [left; by left|].
  destruct (route_path route) as [s|] eqn:Hp.
  - destruct (decide (s = "")) as [->|Hs].
    + right. intros [?|(s'&[= <-]&?)]; done.
    + left. right. by exists s.
  - right. intros [?|(s'&?&?)]; done.
Defined.

(** The full path [register] computes for a route. *)
Definition has_fullpath `{Imports} (ctx : Context) (route : RouteManifestEntry)
    (x : string) : Prop :=
  ∃ lineage, Route_lineage (routes (config ctx)) route = Ret lineage
             ∧ Route_fullpath lineage = x.

(** What lies at and below a directory. *)
Definition subtree (dir : Path) (d : Disk) : Disk :=
  filter (λ kv, dir `prefix_of` kv.1) d.

(** A step of a straight-line program over the file system: a call,
    or an exception raised between calls. *)
Variant Step :=
| Do (c : Call)
| Raise (e : Exn).

(** Running such a program in the world, and its effect on a disk
    alone. Either stops at the first exception. *)
Fixpoint play (steps : list Step) : IO unit :=
  match steps with
  | [] => mret ()
  | Do c :: steps' => call c;; play steps'
  | Raise e :: _ => pure (Throw e)
  end.

Fixpoint apply (steps : list Step) (d : Disk) : Res unit * Disk :=
  match steps with
  | [] => (Ret (), d)
  | Do c :: steps' =>
      match exec c d with
      | Ret d' => apply steps' d'
      | Throw e => (Throw e, d)
      end
  | Raise e :: _ => (Throw e, d)
  end.

(** The steps that never remove anything. *)
Definition keeps (s : Step) : Prop :=
  match s with
  | Do (RmSync _) => False
  | _ => True
  end.

(** Directories stay directories and files stay files under every
    call but [rmSync]. *)
Definition kinds_kept (d d' : Disk) : Prop :=
  ∀ q, (d !! q = Some Dir → d' !! q = Some Dir) ∧
       (∀ x, d !! q = Some (File x) → ∃ y, d' !! q = Some (File y)).

(** Two disks that agree, at every path, with an earlier state of a
    run or with its final state. *)
Definition between (S F T : Disk) : Prop :=
  ∀ p, T !! p = S !! p ∨ T !! p = F !! p.

Section script.

Context `{Imports}.

(** What [writeAll] does for one route, and [writeAll] as a whole,
    written out as steps. *)
Definition route_steps (ctx : Context) (route : RouteManifestEntry) : list Step :=
  match generate ctx route with
  | Ret content =>
      [Do (MkdirSync (Path_dirname (getTypesPath ctx route)));
       Do (WriteFileSync (getTypesPath ctx route) content)]
  | Throw e => [Raise e]
  end.

Definition global_steps (ctx : Context) : list Step :=
  match register ctx with
  | Ret content =>
      [Do (WriteFileSync (Path_join (getTypesDir ctx) "+register.ts") content);
       Do (WriteFileSync (Path_join (getTypesDir ctx) "+virtual.d.ts") virtual)]
  | Throw e => [Raise e]
  end.

Definition script (ctx : Context) : list Step :=
  Do (RmSync (getTypesDir ctx))
  :: concat (route_steps ctx <$> Object_values (routes (config ctx)))
  ++ global_steps ctx.

End script.

(** The members of the alias and the parts of a property signature. *)
Definition alias_members (d : TSTypeAliasDeclaration) : list TSPropertySignature :=
  match d with
  | tsTypeAliasDeclaration _ _ (tsTypeLiteral members) => members
  | tsTypeAliasDeclaration _ _ tsStringKeyword => []
  end.

Definition signature_type (p : TSPropertySignature) : TSType :=
  match p with
  | tsPropertySignature _ (tsTypeAnnotation t) _ => t
  end.

Definition signature_optional (p : TSPropertySignature) : option bool :=
  match p with
  | tsPropertySignature _ _ o => o
  end.

(** The paths of the two global files. *)
Definition registerPath `{Imports} (ctx : Context) : Path :=
  Path_join (getTypesDir ctx) "+register.ts".

Definition virtualPath `{Imports} (ctx : Context) : Path :=
  Path_join (getTypesDir ctx) "+virtual.d.ts".

(** The listener run on a series of notifications, each run started
    when the one before is through; a run that throws does not keep
    the next one from running. *)
Definition dispatch `{Imports} (logger : option Logger) (events : list ChangeEvent)
    (s : Session) : Session :=
  foldl (λ s ev, (onChange logger ev s).2) s events.

(** The configuration of the last notification that carried one. *)
Definition last_loaded (events : list ChangeEvent)
    (initial : ResolvedReactRouterConfig) : ResolvedReactRouterConfig :=
  foldl (λ c ev,
           match result ev with
           | Ok value => value
           | Err _ => c
           end)
        initial events.

(** The line the logger gets after a generation. *)
Definition info_line (msg : string) : LogLine :=
  {| level := Info; text := green msg;
     options := {| timestamp := true; clear := true |} |}.

(* ===================================================================== *)
(** * Properties of the parser *)
(* ===================================================================== *)

Section params_facts.

Import Params.

Lemma split_nonempty sep s : split sep s ≠ [].
Proof.
  destruct s as [|c s]; simpl; [done|]. case_bool_decide; [done|].
  by destruct (split sep s).
Qed.

(** Joining the segments with the separator gives the string back. *)
Lemma join_split s : join "/" (split "/" s) = s.
Proof.
  induction s as [|c s IH]; simpl; [done|].
  case_bool_decide as Hc.
  - subst c. pose proof (split_nonempty "/" s) as Hne.
    unfold join in *. simpl. destruct (split "/" s); [done|].
    simpl in *. by rewrite IH.
  - unfold join in *. destruct (split "/" s) as [|seg segs]; simpl in *;
      [by rewrite <- IH|].
    destruct segs; simpl in *; by rewrite <- IH.
Qed.

Lemma append_nil s : "" +:+ s = s.
Proof. reflexivity. Qed.

Lemma append_cons a s t : String a s +:+ t = String a (s +:+ t).
Proof. reflexivity. Qed.

Create Rewrite HintDb str.
#[local] Hint Rewrite append_nil append_cons : str.

Ltac str_simpl := autorewrite with str in *; simplify_eq.

Lemma strip_optional_some s r :
  strip_optional s = (r, true) ↔ s = r +:+ "?".
Proof.
  revert r. induction s as [|c s IH]; intros r; simpl.
  - split; [done|]. destruct r; by str_simpl.
  - destruct s as [|c' s'].
    + case_bool_decide; split; intros Heq; simplify_eq; try done;
        destruct r as [|a [|]]; by str_simpl.
    + destruct (strip_optional (String c' s')) as [r' q] eqn:Hs.
      split; intros Heq.
      * simplify_eq. str_simpl. f_equal. by apply IH.
      * destruct r as [|a r]; str_simpl.
        apply IH in H. by simplify_eq.
Qed.

Lemma strip_optional_none s r :
  strip_optional s = (r, false) ↔ s = r ∧ ∀ n, s ≠ n +:+ "?".
Proof.
  destruct (strip_optional s) as [r' q] eqn:Hs. destruct q.
  - split; [done|]. intros [-> Hn]. apply strip_optional_some in Hs. by destruct (Hn r').
  - assert (r' = s) as ->.
    { clear -Hs. revert r' Hs. induction s as [|c s IH]; intros r' Hs; simpl in Hs.
      - by simplify_eq.
      - destruct s as [|c' s'].
        + case_bool_decide; by simplify_eq.
        + destruct (strip_optional (String c' s')) as [r1 q1].
          simplify_eq. f_equal. by apply IH. }
    split.
    + intros [= ->]. split; [done|]. intros n Hn.
      apply strip_optional_some in Hn. congruence.
    + by intros [-> _].
Qed.

(** The segment classifier agrees with the grammar. *)
Lemma segment_param_declares seg name b :
  segment_param seg = Some (name, b) ↔ declares seg name b.
Proof.
  split.
  - destruct seg as [|c rest]; [done|]. unfold segment_param.
    destruct (decide (c = ":"%char)) as [->|Hc].
    + destruct (strip_optional rest) as [r q] eqn:Hs. intros [= -> <-].
      destruct q; simpl.
      * apply strip_optional_some in Hs as ->. apply declares_optional.
      * apply strip_optional_none in Hs as [-> Hn]. by apply declares_required.
    + destruct (decide (c = "*"%char)) as [->|Hc'].
      * destruct rest; [|done]. intros [= <- <-]. apply declares_splat.
      * intros Hs. exfalso. revert Hs.
        destruct c as [[] [] [] [] [] [] [] []]; try done; by destruct rest.
  - intros [n Hn| n |]; [| |done]; rewrite append_cons, append_nil; simpl.
    + destruct (strip_optional n) as [r q] eqn:Hs. destruct q.
      * apply strip_optional_some in Hs. by destruct (Hn r).
      * by apply strip_optional_none in Hs as [-> _].
    + destruct (strip_optional (n +:+ "?")) as [r q] eqn:Hs. destruct q.
      * apply strip_optional_some in Hs.
        assert (n = r) as ->; [|done].
        clear -Hs. revert r Hs. induction n as [|a n IH]; intros [|a' r] Hs;
          str_simpl; try done.
        -- by destruct r.
        -- by destruct n.
        -- f_equal. by apply IH.
      * apply strip_optional_none in Hs as [_ Hn]. by destruct (Hn n).
Qed.

Lemma keys_assign k v o :
  keys (assign k v o) = if bool_decide (k ∈ keys o) then keys o else keys o ++ [k].
Proof.
  unfold keys. induction o as [|[k' v'] o IH]; csimpl; [done|].
  destruct (decide (k = k')) as [->|Hk].
  - rewrite !bool_decide_eq_true_2; [done|left|done].
  - rewrite (bool_decide_eq_false_2 (k = k')) by done. csimpl. rewrite IH.
    destruct (decide (k ∈ o.*1)) as [Hin|Hin].
    + rewrite !bool_decide_eq_true_2; [done|by right|done].
    + rewrite !bool_decide_eq_false_2; [done| |done]. by intros [?|?]%elem_of_cons.
Qed.

Lemma elem_of_keys_assign x k v o :
  x ∈ keys (assign k v o) ↔ x = k ∨ x ∈ keys o.
Proof.
  pose proof (keys_assign k v o) as Hk. unfold keys in *. rewrite Hk.
  case_bool_decide as Hin.
  - split; [by right|]. by intros [->|?].
  - rewrite elem_of_app, list_elem_of_singleton. split; intros [?|?]; auto.
Qed.

Lemma NoDup_keys_assign k v o : NoDup (keys o) → NoDup (keys (assign k v o)).
Proof.
  intros Hnd. pose proof (keys_assign k v o) as Hk. unfold keys in *. rewrite Hk.
  case_bool_decide; [done|].
  apply NoDup_app. split_and!; [done| |apply NoDup_singleton].
  intros x Hx ->%list_elem_of_singleton. done.
Qed.

Lemma get_assign_eq k v o : get k (assign k v o) = Some v.
Proof.
  induction o as [|[k' v'] o IH]; simpl.
  - by rewrite bool_decide_eq_true_2.
  - case_bool_decide as Hk; simpl.
    + by rewrite bool_decide_eq_true_2.
    + by rewrite bool_decide_eq_false_2.
Qed.

Lemma get_assign_ne k k' v o : k' ≠ k → get k' (assign k v o) = get k' o.
Proof.
  intros Hne. induction o as [|[k1 v1] o IH]; simpl.
  - by rewrite bool_decide_eq_false_2.
  - case_bool_decide as Hk; simpl.
    + subst k1. by rewrite !bool_decide_eq_false_2.
    + by rewrite IH.
Qed.

Local Abbreviation step :=
  (λ (result : Entries) (segment : string),
     match segment_param segment with
     | Some (param, isRequired) => assign param isRequired result
     | None => result
     end).

Lemma scan_keys segs acc :
  NoDup (keys acc) →
  NoDup (keys (foldl step acc segs)) ∧
  ∀ name, name ∈ keys (foldl step acc segs) ↔
    name ∈ keys acc ∨ ∃ seg b, seg ∈ segs ∧ segment_param seg = Some (name, b).
Proof.
  revert acc. induction segs as [|seg segs IH]; intros acc Hnd; simpl.
  - split; [done|]. intros name. split; [by left|]. intros [?|(?&?&[]%elem_of_nil&_)]. done.
  - destruct (segment_param seg) as [[param isRequired]|] eqn:Hseg.
    + destruct (IH (assign param isRequired acc)) as [IH1 IH2];
        [by apply NoDup_keys_assign|].
      split; [done|]. intros name. rewrite IH2, elem_of_keys_assign.
      split.
      * intros [[->|?]|(seg'&b&?&?)]; [right|by left|right].
        -- exists seg, isRequired. split; [left|done].
        -- exists seg', b. split; [by right|done].
      * intros [?|(seg'&b&[->|?]%elem_of_cons&Hb)]; [by left; right| |].
        -- left; left. congruence.
        -- right. by exists seg', b.
    + destruct (IH acc Hnd) as [IH1 IH2]. split; [done|].
      intros name. rewrite IH2. split.
      * intros [?|(seg'&b&?&?)]; [by left|right].
        exists seg', b. split; [by right|done].
      * intros [?|(seg'&b&[->|?]%elem_of_cons&Hb)]; [by left|congruence|].
        right. by exists seg', b.
Qed.

Lemma scan_undeclared segs acc name :
  (∀ seg b, seg ∈ segs → segment_param seg ≠ Some (name, b)) →
  get name (foldl step acc segs) = get name acc.
Proof.
  revert acc. induction segs as [|seg segs IH]; intros acc Hno; simpl; [done|].
  rewrite IH by (intros; apply Hno; by right).
  destruct (segment_param seg) as [[param isRequired]|] eqn:Hseg; [|done].
  apply get_assign_ne. intros ->. by eapply (Hno seg isRequired); [left|].
Qed.

Lemma scan_last pre seg post acc name b :
  segment_param seg = Some (name, b) →
  (∀ seg' b', seg' ∈ post → segment_param seg' ≠ Some (name, b')) →
  get name (foldl step acc (pre ++ seg :: post)) = Some b.
Proof.
  intros Hseg Hpost. rewrite foldl_app. simpl. rewrite Hseg.
  rewrite scan_undeclared by done. apply get_assign_eq.
Qed.

(** C8. [parse] is a total function. On every string it returns a
    record that lists each name once and whose names are exactly those
    a segment of the string declares, as a dynamic segment or as the
    splat. The segments are the pieces between the slashes; the empty
    ones and the static ones declare no name. *)
Theorem parse_keys_exact (s : string) :
  ∃ result, parse s = result ∧
    NoDup (keys result) ∧
    (∀ name, name ∈ keys result ↔
       ∃ seg b, seg ∈ split "/" s ∧ declares seg name b) ∧
    join "/" (split "/" s) = s ∧
    (∀ seg name b,
       seg = "" ∨ (seg ≠ "*" ∧ ∀ rest, seg ≠ ":" +:+ rest) →
       ¬ declares seg name b).
Proof.
  exists (parse s). split; [done|].
  destruct (scan_keys (split "/" s) []) as [Hnd Hkeys]; [constructor|].
  split_and!; [done| |apply join_split|].
  - intros name. unfold parse. rewrite Hkeys. split.
    + intros [[]%elem_of_nil|(seg&b&?&?%segment_param_declares)]. by exists seg, b.
    + intros (seg&b&?&?%segment_param_declares). right. by exists seg, b.
  - intros seg name b [->|[Hstar Hcolon]] Hd.
    + inversion Hd.
    + inversion Hd; subst; [by eapply Hcolon..|done].
Qed.

(** C9. When several segments of a path declare the same name, the
    flag [parse] records for the name is the one of the last of them
    in path order; [/a/:id?/b/:id] gives [id] as required. *)
Theorem parse_last_occurrence_wins :
  (∀ s pre seg post name b,
     split "/" s = pre ++ seg :: post →
     declares seg name b →
     (∀ seg' b', seg' ∈ post → ¬ declares seg' name b') →
     get name (parse s) = Some b ∧ NoDup (keys (parse s)))
  ∧ parse "/a/:id?/b/:id" = [("id", true)].
Proof.
  split; [|done].
  intros s pre seg post name b Hs Hseg Hpost.
  split.
  - unfold parse. rewrite Hs. apply scan_last.
    + by apply segment_param_declares.
    + intros seg' b' Hin Hd. apply (Hpost seg' b' Hin). by apply segment_param_declares.
  - apply (scan_keys (split "/" s) []). constructor.
Qed.

End params_facts.
(* ===================================================================== *)
(** * Properties of the file system *)
(* ===================================================================== *)

Section fs_facts.

Implicit Types (d : Disk) (p q dir : Path).

Lemma lookup_prune dir d p :
  prune dir d !! p = if decide (dir `prefix_of` p) then None else d !! p.
Proof.
  unfold prune. case_decide as Hp.
  - apply map_lookup_filter_None. right. intros x _ Hn. by apply Hn.
  - destruct (d !! p) as [x|] eqn:Hx.
    + by apply map_lookup_filter_Some.
    + apply map_lookup_filter_None. by left.
Qed.

Lemma lookup_subtree dir d p :
  subtree dir d !! p = if decide (dir `prefix_of` p) then d !! p else None.
Proof.
  unfold subtree. case_decide as Hp.
  - destruct (d !! p) as [x|] eqn:Hx.
    + by apply map_lookup_filter_Some.
    + apply map_lookup_filter_None. by left.
  - apply map_lookup_filter_None. right. by intros x _ Hn.
Qed.

Lemma chain_nonempty p q : q ∈ chain p → q ≠ [].
Proof.
  unfold chain. intros (n&->&Hn)%list_elem_of_fmap.
  apply elem_of_seq in Hn. destruct p, n; simpl in *; try done; lia.
Qed.

Lemma lookup_mkdirs (l : list Path) d q :
  foldr (λ q m, <[q := Dir]> m) d l !! q = if decide (q ∈ l) then Some Dir else d !! q.
Proof.
  induction l as [|a l IH]; cbn [foldr].
  - by destruct (decide (q ∈ [])) as [?%elem_of_nil|].
  - destruct (decide (a = q)) as [->|Hne].
    + rewrite lookup_insert_eq. destruct (decide (q ∈ q :: l)) as [|Hn]; [done|].
      destruct Hn. left.
    + rewrite lookup_insert_ne by done. rewrite IH.
      destruct (decide (q ∈ l)), (decide (q ∈ a :: l)) as [Hin|Hn]; try done.
      * destruct Hn. by right.
      * by apply elem_of_cons in Hin as [?|?].
Qed.

Lemma kind_cons d a p : kind d (a :: p) = d !! (a :: p).
Proof. done. Qed.

Lemma mkdir_Ret p d d' :
  mkdir p d = Ret d' ↔
  (∀ q, q ∈ chain p → is_file d q = false) ∧
  d' = foldr (λ q m, <[q := Dir]> m) d (chain p).
Proof.
  unfold mkdir. destruct (existsb (is_file d) (chain p)) eqn:Hex.
  - split; [done|]. intros [Hall _].
    apply existsb_exists in Hex as (q&Hq%list_elem_of_In&Hf).
    rewrite Hall in Hf; done.
  - split.
    + intros [= <-]. split; [|done]. intros q Hq.
      destruct (is_file d q) eqn:Hf; [|done].
      assert (existsb (is_file d) (chain p) = true); [|congruence].
      apply existsb_exists. exists q. split; [by apply list_elem_of_In|done].
    + by intros [_ ->].
Qed.

Lemma write_Ret p content d d' :
  write p content d = Ret d' ↔
  is_dir d p = false ∧ is_dir d (Path_dirname p) = true ∧
  d' = <[p := File content]> d.
Proof.
  unfold write. destruct (is_dir d p) eqn:Hp.
  { split; [done|]. by intros [? _]. }
  destruct (is_dir d (Path_dirname p)).
  - split; [by intros [= <-]|by intros (_&_&->)].
  - split; [done|]. by intros (_&?&_).
Qed.

Lemma blocked_false d p :
  blocked d p = false ↔ ∀ q, q ∈ chain (Path_dirname p) → is_file d q = false.
Proof.
  unfold blocked. destruct (existsb _ _) eqn:Hex.
  - split; [done|]. intros Hall.
    apply existsb_exists in Hex as (q&Hq%list_elem_of_In&Hf).
    rewrite Hall in Hf; done.
  - split; [|done]. intros _ q Hq.
    destruct (is_file d q) eqn:Hf; [|done].
    assert (existsb (is_file d) (chain (Path_dirname p)) = true); [|congruence].
    apply existsb_exists. exists q. split; [by apply list_elem_of_In|done].
Qed.

Lemma rm_Ret p d d' :
  rm p d = Ret d' ↔ blocked d p = false ∧ d' = prune p d.
Proof.
  unfold rm. destruct (blocked d p).
  - split; [done|]. by intros [? _].
  - split; [by intros [= <-]|by intros [_ ->]].
Qed.

Lemma rm_Throw p d e :
  rm p d = Throw e ↔ blocked d p = true ∧ e = SystemError ENOTDIR p.
Proof.
  unfold rm. destruct (blocked d p).
  - split; [by intros [= <-]|by intros [_ ->]].
  - split; [done|]. by intros [? _].
Qed.

Lemma kinds_kept_refl d : kinds_kept d d.
Proof. intros q. split; [done|]. intros x ?. by exists x. Qed.

Lemma kinds_kept_trans d1 d2 d3 :
  kinds_kept d1 d2 → kinds_kept d2 d3 → kinds_kept d1 d3.
Proof.
  intros H12 H23 q. destruct (H12 q) as [Hd Hf], (H23 q) as [Hd' Hf'].
  split; [auto|]. intros x Hx. destruct (Hf x Hx) as [y Hy]. eauto.
Qed.

Lemma is_file_lookup d q x : d !! q = Some (File x) → q ≠ [] → is_file d q = true.
Proof. intros Hq Hne. unfold is_file. destruct q; [done|]. by rewrite kind_cons, Hq. Qed.

Lemma is_dir_false_lookup d p : is_dir d p = false → p ≠ [] ∧ d !! p ≠ Some Dir.
Proof.
  unfold is_dir. destruct p; [done|]. rewrite kind_cons.
  intros Hk. split; [done|]. intros Hd. by rewrite Hd in Hk.
Qed.

Lemma is_dir_true_lookup d p : is_dir d p = true → p = [] ∨ d !! p = Some Dir.
Proof.
  unfold is_dir. destruct p; [by left|]. rewrite kind_cons.
  destruct (d !! (s :: p)) as [[]|]; try done. by right.
Qed.

Lemma exec_kinds_kept c d d' :
  keeps (Do c) → exec c d = Ret d' → kinds_kept d d'.
Proof.
  destruct c as [p|p|p content]; simpl; [done| |]; intros _.
  - intros [Hfree ->]%mkdir_Ret q. rewrite lookup_mkdirs.
    destruct (decide (q ∈ chain p)) as [Hq|Hq].
    + split; [done|]. intros x Hx.
      specialize (Hfree q Hq).
      rewrite (is_file_lookup d q x) in Hfree; [done..|]. by eapply chain_nonempty.
    + split; [done|]. intros x ?. by exists x.
  - intros (Hp&_&->)%write_Ret q. apply is_dir_false_lookup in Hp as [Hne Hp].
    destruct (decide (p = q)) as [->|Hpq].
    + rewrite lookup_insert_eq. split; [done|]. intros x _. by exists content.
    + rewrite lookup_insert_ne by done. split; [done|]. intros x ?. by exists x.
Qed.

Lemma apply_kinds_kept steps d r d' :
  Forall keeps steps → apply steps d = (r, d') → kinds_kept d d'.
Proof.
  intros Hk. revert d. induction Hk as [|s steps Hs Hk IH]; intros d; simpl.
  - intros [= _ <-]. apply kinds_kept_refl.
  - destruct s as [c|e]; [|intros [= _ <-]; apply kinds_kept_refl].
    destruct (exec c d) as [d1|e] eqn:Hc; [|intros [= _ <-]; apply kinds_kept_refl].
    intros Hrest. eapply kinds_kept_trans; [by eapply exec_kinds_kept|by apply IH].
Qed.

Lemma between_same S T : between S S T → T = S.
Proof. intros Hb. apply map_eq. intros p. by destruct (Hb p). Qed.

Lemma exec_replay c S S' F T :
  keeps (Do c) → exec c S = Ret S' → kinds_kept S' F → between S F T →
  ∃ T', exec c T = Ret T' ∧ between S' F T'.
Proof.
  destruct c as [p|p|p content]; simpl; [done| |]; intros _.
  - intros [Hfree ->]%mkdir_Ret Hkept Hb.
    eexists. split.
    + apply mkdir_Ret. split; [|done]. intros q Hq.
      pose proof (chain_nonempty _ _ Hq) as Hne.
      destruct (is_file T q) eqn:Hf; [|done]. exfalso.
      unfold is_file in Hf. destruct q as [|a q]; [done|]. rewrite kind_cons in Hf.
      destruct (T !! (a :: q)) as [[x|]|] eqn:HT; try done.
      destruct (Hb (a :: q)) as [HS|HF]; rewrite HT in *.
      * specialize (Hfree _ Hq).
        by rewrite (is_file_lookup S (a :: q) x) in Hfree.
      * destruct (Hkept (a :: q)) as [Hd _]. rewrite lookup_mkdirs in Hd.
        rewrite decide_True in Hd by done. rewrite Hd in HF; done.
    + intros q. rewrite !lookup_mkdirs. destruct (decide (q ∈ chain p)); [by left|].
      apply Hb.
  - intros (Hp&Hparent&->)%write_Ret Hkept Hb.
    apply is_dir_false_lookup in Hp as [Hne Hp].
    destruct (Hkept p) as [_ Hfile]. rewrite lookup_insert_eq in Hfile.
    destruct (Hfile content eq_refl) as [y Hy].
    eexists. split.
    + apply write_Ret. split_and!; [| |done].
      * unfold is_dir. destruct p as [|a p]; [done|]. rewrite kind_cons.
        destruct (Hb (a :: p)) as [-> | ->]; [|by rewrite Hy].
        by destruct (S !! (a :: p)) as [[]|].
      * apply is_dir_true_lookup in Hparent as [Hroot|Hdir].
        { by rewrite Hroot. }
        unfold is_dir. destruct (Path_dirname p) as [|a q] eqn:Hq; [done|].
        rewrite kind_cons.
        assert (a :: q ≠ p) as Hne'.
        { intros <-. rewrite Hdir in Hp. done. }
        destruct (Hkept (a :: q)) as [Hd _].
        rewrite lookup_insert_ne in Hd by done.
        destruct (Hb (a :: q)) as [-> | ->]; [by rewrite Hdir|by rewrite Hd].
    + intros q. destruct (decide (p = q)) as [->|Hpq].
      * rewrite !lookup_insert_eq. by left.
      * rewrite !lookup_insert_ne by done. apply Hb.
Qed.

Lemma apply_replay steps S T r F :
  Forall keeps steps → apply steps S = (r, F) → between S F T →
  apply steps T = (r, F).
Proof.
  intros Hk. revert S T. induction Hk as [|s steps Hs Hk IH]; intros S T; simpl.
  - intros [= <- <-] ->%between_same. done.
  - destruct s as [c|e]; [|by intros [= <- <-] ->%between_same].
    destruct (exec c S) as [S'|e] eqn:Hc.
    + intros Hrest Hb.
      destruct (exec_replay c S S' F T) as (T'&->&Hb'); try done.
      { by eapply apply_kinds_kept. }
      by eapply IH.
    + intros [= <- <-] ->%between_same. by rewrite Hc.
Qed.

Lemma elem_of_chain p q : p ∈ chain q ↔ p ≠ [] ∧ p `prefix_of` q.
Proof.
  unfold chain. rewrite list_elem_of_fmap. split.
  - intros (n&->&[Hn1 Hn2]%elem_of_seq). split.
    + destruct q, n; simpl in *; try done; lia.
    + exists (drop n q). by rewrite take_drop.
  - intros [Hne [k ->]]. exists (length p). split.
    + by rewrite take_app_length.
    + apply elem_of_seq. rewrite length_app. destruct p; simpl in *; [done|lia].
Qed.

Lemma dirname_prefix p : Path_dirname p `prefix_of` p.
Proof.
  unfold Path_dirname. destruct p as [|a p _] using rev_ind; [done|].
  rewrite removelast_last. by exists [a].
Qed.

Lemma dirname_join dir name : Path_dirname (Path_join dir name) = dir.
Proof. unfold Path_dirname, Path_join. apply removelast_last. Qed.

Lemma join_below dir name : dir `prefix_of` Path_join dir name.
Proof. by exists [name]. Qed.

(** Where the entry at a path comes from after one call. *)
Lemma exec_lookup c d d' p :
  keeps (Do c) → exec c d = Ret d' →
  d' !! p = d !! p
  ∨ (∃ content, c = WriteFileSync p content ∧ d' !! p = Some (File content))
  ∨ (∃ q, c = MkdirSync q ∧ p ∈ chain q ∧ d' !! p = Some Dir).
Proof.
  destruct c as [q|q|q content]; simpl; [done| |]; intros _.
  - intros [_ ->]%mkdir_Ret. rewrite lookup_mkdirs.
    destruct (decide (p ∈ chain q)); [|by left].
    right; right. by exists q.
  - intros (_&_&->)%write_Ret. destruct (decide (q = p)) as [->|].
    + rewrite lookup_insert_eq. right; left. by exists content.
    + rewrite lookup_insert_ne by done. by left.
Qed.

(** Where the entry at a path comes from after a program. *)
Lemma apply_lookup steps d r F p :
  Forall keeps steps → apply steps d = (r, F) →
  F !! p = d !! p
  ∨ (∃ content, Do (WriteFileSync p content) ∈ steps ∧ F !! p = Some (File content))
  ∨ (∃ q, Do (MkdirSync q) ∈ steps ∧ p ∈ chain q ∧ F !! p = Some Dir).
Proof.
  intros Hk. revert d. induction Hk as [|s steps Hs Hk IH]; intros d; simpl.
  - intros [= _ <-]. by left.
  - destruct s as [c|e]; [|intros [= _ <-]; by left].
    destruct (exec c d) as [d'|e] eqn:Hc; [|intros [= _ <-]; by left].
    intros Hrest. destruct (IH d' Hrest) as [Heq|[(content&?&?)|(q&?&?&?)]].
    + rewrite Heq.
      destruct (exec_lookup c d d' p Hs Hc) as [?|[(content&->&?)|(q&->&?&?)]].
      * by left.
      * right; left. exists content. split; [left|congruence].
      * right; right. exists q. split_and!; [left|done|congruence].
    + right; left. exists content. split; [by right|done].
    + right; right. exists q. split_and!; [by right|done..].
Qed.

Lemma chain_dirname_outside dir q :
  q ∈ chain (Path_dirname dir) → ¬ dir `prefix_of` q.
Proof.
  intros [Hne Hq]%elem_of_chain Hdir.
  assert (dir `prefix_of` Path_dirname dir) as Hlen%prefix_length by by etrans.
  unfold Path_dirname in *. destruct dir as [|a dir _] using rev_ind.
  - by apply prefix_nil_inv in Hq.
  - rewrite removelast_last, length_app in Hlen. cbn in Hlen. lia.
Qed.

(** Removing a directory and replaying steps that only create, and
    write no file above the directory: the second pass ends like the
    first, on the same disk. *)
Lemma apply_twice dir steps d r F :
  Forall keeps steps →
  (∀ q content, q ∈ chain (Path_dirname dir) →
                Do (WriteFileSync q content) ∉ steps) →
  apply (Do (RmSync dir) :: steps) d = (r, F) →
  apply (Do (RmSync dir) :: steps) F = (r, F).
Proof.
  cbn [apply exec]. intros Hk Habove.
  destruct (rm dir d) as [d0|e] eqn:Hrm.
  - apply rm_Ret in Hrm as [Hfree ->]. intros Hrun.
    assert (rm dir F = Ret (prune dir F)) as ->.
    { apply rm_Ret. split; [|done]. apply blocked_false. intros q Hq.
      pose proof (chain_dirname_outside dir q Hq) as Hout.
      pose proof (chain_nonempty _ _ Hq) as Hne.
      unfold is_file. destruct q as [|a q]; [done|]. rewrite kind_cons.
      destruct (apply_lookup steps _ r F (a :: q) Hk Hrun)
        as [->|[(content&Hin&_)|(q'&_&_&->)]]; [| |done].
      + rewrite lookup_prune, decide_False by done.
        pose proof (proj1 (blocked_false d dir) Hfree _ Hq) as Hf.
        unfold is_file in Hf. by rewrite kind_cons in Hf.
      + by destruct (Habove _ content Hq). }
    eapply apply_replay; [done..|].
    intros p. rewrite !lookup_prune.
    destruct (decide (dir `prefix_of` p)); [by left|by right].
  - intros [= <- <-]. by rewrite Hrm.
Qed.

(** Below a directory the outcome of a successful run depends only
    on what was below it at the start. *)
Lemma apply_subtree dir steps d1 d2 F1 F2 :
  Forall keeps steps →
  apply steps d1 = (Ret (), F1) → apply steps d2 = (Ret (), F2) →
  subtree dir d1 = subtree dir d2 → subtree dir F1 = subtree dir F2.
Proof.
  intros Hk. revert d1 d2. induction Hk as [|s steps Hs Hk IH]; intros d1 d2; simpl.
  - by intros [= <-] [= <-].
  - destruct s as [c|e]; [|done].
    destruct (exec c d1) as [d1'|] eqn:H1; [|done].
    destruct (exec c d2) as [d2'|] eqn:H2; [|done].
    intros Hr1 Hr2 Hsame. eapply IH; [done..|].
    apply map_eq. intros q. rewrite !lookup_subtree.
    destruct (decide (dir `prefix_of` q)) as [Hq|]; [|done].
    assert (d1 !! q = d2 !! q) as Hq12.
    { apply (f_equal (λ m : Disk, m !! q)) in Hsame.
      by rewrite !lookup_subtree, !decide_True in Hsame. }
    destruct c as [p|p|p content]; simpl in *; [done| |].
    + apply mkdir_Ret in H1 as [_ ->], H2 as [_ ->]. rewrite !lookup_mkdirs.
      by destruct (decide (q ∈ chain p)).
    + apply write_Ret in H1 as (_&_&->), H2 as (_&_&->).
      destruct (decide (p = q)) as [->|].
      * by rewrite !lookup_insert_eq.
      * by rewrite !lookup_insert_ne.
Qed.

End fs_facts.
(* ===================================================================== *)
(** * Properties of the output writer *)
(* ===================================================================== *)

Section typegen_facts.

Context `{Imports}.

Lemma bind_unfold {A B} (m : IO A) (f : A → IO B) w :
  (m ≫= f) w =
  match m w with
  | (Ret a, w') => f a w'
  | (Throw e, w') => (Throw e, w')
  end.
Proof. done. Qed.

Ltac io_unfold := unfold mbind, IO_bind, mret, IO_ret, pure; cbv beta.

Lemma play_app a b w : play (a ++ b) w = (play a;; play b) w.
Proof.
  revert w. induction a as [|[c|e] a IH]; intros w; [done| |done].
  cbn [app play]. rewrite !bind_unfold.
  destruct (call c w) as [[[]|e] w']; [|done]. by rewrite IH, bind_unfold.
Qed.

(** What one call does to the world. *)
Lemma call_spec c w :
  ∃ w', call c w
        = (match exec c (disk w) with
           | Ret _ => Ret ()
           | Throw e => Throw e
           end, w') ∧
        disk w' = after c (disk w) ∧
        trace w' = trace w ++ [c] ∧
        console w' = console w.
Proof. by eexists. Qed.

(** The world after a program: the disk is that of [apply], the
    console is untouched. *)
Lemma play_apply steps w :
  (play steps w).1 = (apply steps (disk w)).1 ∧
  disk (play steps w).2 = (apply steps (disk w)).2 ∧
  console (play steps w).2 = console w.
Proof.
  revert w. induction steps as [|[c|e] steps IH]; intros w; [done| |done].
  cbn [play apply]. rewrite bind_unfold.
  destruct (call_spec c w) as (w'&->&Hd&_&Hc). unfold after in Hd.
  destruct (exec c (disk w)) as [d|e]; [|done].
  destruct (IH w') as (?&?&?). rewrite <- Hd, <- Hc. by split_and!.
Qed.

(** The calls of a program are appended to the trace; a program that
    returns made all its calls and raised nothing. *)
Lemma play_trace steps w :
  ∃ cs, trace (play steps w).2 = trace w ++ cs ∧
        ((play steps w).1 = Ret () → steps = Do <$> cs).
Proof.
  revert w. induction steps as [|[c|e] steps IH]; intros w.
  - exists []. by rewrite app_nil_r.
  - cbn [play]. rewrite bind_unfold.
    destruct (call_spec c w) as (w'&->&_&Ht&_).
    destruct (exec c (disk w)) as [d|e].
    + destruct (IH w') as (cs&Ht'&Hr).
      exists (c :: cs). rewrite Ht', Ht, <- app_assoc. split; [done|].
      intros Hok. by rewrite (Hr Hok).
    + exists [c]. done.
  - exists []. by rewrite app_nil_r.
Qed.

Lemma route_steps_play ctx route w :
  (content ← pure (generate ctx route);
   fs_mkdirSync (Path_dirname (getTypesPath ctx route));;
   fs_writeFileSync (getTypesPath ctx route) content) w
  = play (route_steps ctx route) w.
Proof.
  unfold route_steps, fs_mkdirSync, fs_writeFileSync.
  destruct (generate ctx route) as [content|e]; [|done].
  cbn [play]. io_unfold.
  destruct (call _ w) as [[[]|e] w1]; [|done].
  by destruct (call _ w1) as [[[]|e] w2].
Qed.

Lemma global_steps_play ctx w :
  (content ← pure (register ctx);
   fs_writeFileSync (Path_join (getTypesDir ctx) "+register.ts") content;;
   fs_writeFileSync (Path_join (getTypesDir ctx) "+virtual.d.ts") virtual) w
  = play (global_steps ctx) w.
Proof.
  unfold global_steps, fs_writeFileSync.
  destruct (register ctx) as [content|e]; [|done].
  cbn [play]. io_unfold.
  destruct (call _ w) as [[[]|e] w1]; [|done].
  by destruct (call _ w1) as [[[]|e] w2].
Qed.

Lemma forEach_play ctx (l : list RouteManifestEntry) w :
  forEach l (λ route,
    content ← pure (generate ctx route);
    fs_mkdirSync (Path_dirname (getTypesPath ctx route));;
    fs_writeFileSync (getTypesPath ctx route) content) w
  = play (concat (route_steps ctx <$> l)) w.
Proof.
  revert w. induction l as [|route l IH]; intros w; [done|].
  cbn [forEach fmap list_fmap concat].
  rewrite play_app, (bind_unfold (play _)), <- route_steps_play.
  rewrite (bind_unfold (_ ≫= _)).
  match goal with |- context [match ?m w with _ => _ end] => destruct (m w) as [[[]|e] w1] end;
    [|done].
  apply IH.
Qed.

(** [writeAll] runs its script. *)
Lemma writeAll_script ctx w : writeAll ctx w = play (script ctx) w.
Proof.
  unfold writeAll, script, fs_rmSync. cbn [play]. rewrite !(bind_unfold (call _)).
  destruct (call _ w) as [[[]|e] w1]; [|done].
  rewrite play_app, (bind_unfold (play _)), (bind_unfold (forEach _ _)), forEach_play.
  destruct (play _ w1) as [[[]|e] w2]; [|done]. apply global_steps_play.
Qed.

Lemma route_steps_keep ctx route : Forall keeps (route_steps ctx route).
Proof.
  unfold route_steps. destruct (generate ctx route); repeat constructor.
Qed.

Lemma script_keeps ctx :
  Forall keeps (concat (route_steps ctx <$> Object_values (routes (config ctx)))
                ++ global_steps ctx).
Proof.
  apply Forall_app. split.
  - apply Forall_concat, Forall_fmap, Forall_forall. intros route _.
    apply route_steps_keep.
  - unfold global_steps. destruct (register ctx); repeat constructor.
Qed.
Section disk_after_script.

Implicit Types (d F : Disk) (p q : Path).

Lemma route_steps_keeps ctx (l : list RouteManifestEntry) :
  Forall keeps (concat (route_steps ctx <$> l)).
Proof.
  apply Forall_concat, Forall_fmap, Forall_forall. intros route _.
  apply route_steps_keep.
Qed.

Lemma apply_app a b d :
  apply (a ++ b) d =
  match apply a d with
  | (Ret _, d') => apply b d'
  | (Throw e, d') => (Throw e, d')
  end.
Proof.
  revert d. induction a as [|[c|e] a IH]; intros d; simpl; [done| |done].
  destruct (exec c d); [apply IH|done].
Qed.

(** A file keeps its content when every later write to its path
    writes the same. *)
Lemma apply_file_kept steps d r F p content :
  Forall keeps steps → apply steps d = (r, F) →
  d !! p = Some (File content) →
  (∀ c', Do (WriteFileSync p c') ∈ steps → c' = content) →
  F !! p = Some (File content).
Proof.
  intros Hk Hrun Hp Hsame.
  destruct (apply_lookup steps d r F p Hk Hrun) as [->|[(c'&Hin&->)|(q&_&_&Hdir)]].
  - done.
  - by rewrite (Hsame c' Hin).
  - destruct (apply_kinds_kept steps d r F Hk Hrun p) as [_ Hfile].
    destruct (Hfile content Hp) as [y Hy]. congruence.
Qed.

Lemma apply_file_written steps d F p content :
  Forall keeps steps → apply steps d = (Ret (), F) →
  Do (WriteFileSync p content) ∈ steps →
  (∀ c', Do (WriteFileSync p c') ∈ steps → c' = content) →
  F !! p = Some (File content).
Proof.
  intros Hk. revert d. induction Hk as [|s steps Hs Hk IH]; intros d; simpl.
  - by intros _ ?%elem_of_nil.
  - destruct s as [c|e]; [|done].
    destruct (exec c d) as [d'|e] eqn:Hc; [|done].
    intros Hrun Hin Hsame.
    apply elem_of_cons in Hin as [[= <-]|Hin].
    + apply write_Ret in Hc as (_&_&->).
      eapply apply_file_kept; [done..|apply lookup_insert_eq|].
      intros c' Hc'. apply Hsame. by right.
    + eapply IH; [done..|]. intros c' Hc'. apply Hsame. by right.
Qed.

Lemma elem_of_concat {A} (x : A) (ls : list (list A)) :
  x ∈ concat ls ↔ ∃ l, l ∈ ls ∧ x ∈ l.
Proof.
  induction ls as [|l ls IH]; simpl.
  - split; [by intros ?%elem_of_nil|]. by intros (?&?%elem_of_nil&_).
  - rewrite elem_of_app, IH. split.
    + intros [?|(l'&?&?)]; [exists l; split; [left|done]|].
      exists l'. split; [by right|done].
    + intros (l'&[->|?]%elem_of_cons&?); [by left|]. right. by exists l'.
Qed.

(** The steps of the script, traced back to the routes. *)
Lemma route_steps_write ctx (l : list RouteManifestEntry) p content :
  Do (WriteFileSync p content) ∈ concat (route_steps ctx <$> l) →
  ∃ route, route ∈ l ∧ p = getTypesPath ctx route ∧ generate ctx route = Ret content.
Proof.
  intros (steps&(route&->&Hroute)%list_elem_of_fmap&Hin)%elem_of_concat.
  exists route. unfold route_steps in Hin.
  destruct (generate ctx route) as [c|e].
  - apply elem_of_cons in Hin as [[=]|Hin].
    by apply list_elem_of_singleton in Hin as [= -> ->].
  - by apply list_elem_of_singleton in Hin.
Qed.

Lemma route_steps_mkdir ctx (l : list RouteManifestEntry) q :
  Do (MkdirSync q) ∈ concat (route_steps ctx <$> l) →
  ∃ route, route ∈ l ∧ q = Path_dirname (getTypesPath ctx route).
Proof.
  intros (steps&(route&->&Hroute)%list_elem_of_fmap&Hin)%elem_of_concat.
  exists route. unfold route_steps in Hin.
  destruct (generate ctx route) as [c|e].
  - apply elem_of_cons in Hin as [[= ->]|Hin]; [done|].
    by apply list_elem_of_singleton in Hin.
  - by apply list_elem_of_singleton in Hin.
Qed.

Lemma global_steps_write ctx p content :
  Do (WriteFileSync p content) ∈ global_steps ctx →
  (p = registerPath ctx ∧ register ctx = Ret content)
  ∨ (p = virtualPath ctx ∧ content = virtual).
Proof.
  unfold global_steps, registerPath, virtualPath.
  destruct (register ctx) as [c|e]; intros Hin.
  - apply elem_of_cons in Hin as [[= -> ->]|Hin]; [by left|].
    apply list_elem_of_singleton in Hin as [= -> ->]. by right.
  - by apply list_elem_of_singleton in Hin.
Qed.

Lemma global_steps_mkdir ctx q : Do (MkdirSync q) ∉ global_steps ctx.
Proof.
  unfold global_steps. destruct (register ctx) as [c|e]; intros Hin.
  - apply elem_of_cons in Hin as [[=]|Hin].
    by apply list_elem_of_singleton in Hin.
  - by apply list_elem_of_singleton in Hin.
Qed.

(** The disk and the result of [writeAll], by way of the script. *)
Lemma writeAll_apply ctx w :
  apply (script ctx) (disk w) = ((writeAll ctx w).1, disk (writeAll ctx w).2).
Proof.
  rewrite writeAll_script.
  destruct (play_apply (script ctx) w) as (Hr&Hd&_).
  rewrite Hr, Hd. by destruct (apply _ _).
Qed.

(** Either a regular file stands above the output directory, and
    [writeAll] throws at once, or the directory is taken off the disk
    and the rest of the script runs. *)
Lemma writeAll_cases ctx w :
  (blocked (disk w) (getTypesDir ctx) = true ∧
   (writeAll ctx w).1 = Throw (SystemError ENOTDIR (getTypesDir ctx)) ∧
   disk (writeAll ctx w).2 = disk w)
  ∨ (blocked (disk w) (getTypesDir ctx) = false ∧
     apply (concat (route_steps ctx <$> Object_values (routes (config ctx)))
            ++ global_steps ctx)
       (prune (getTypesDir ctx) (disk w))
     = ((writeAll ctx w).1, disk (writeAll ctx w).2)).
Proof.
  pose proof (writeAll_apply ctx w) as Hrun. unfold script in Hrun.
  cbn [apply exec] in Hrun.
  destruct (rm (getTypesDir ctx) (disk w)) as [d0|e] eqn:Hrm.
  - apply rm_Ret in Hrm as [Hfree ->]. by right.
  - apply rm_Throw in Hrm as [Hblocked ->]. left.
    by injection Hrun as <- <-.
Qed.

(** The script writes no file above the output directory. *)
Lemma script_writes_inside ctx q content :
  q ∈ chain (Path_dirname (getTypesDir ctx)) →
  Do (WriteFileSync q content)
  ∉ concat (route_steps ctx <$> Object_values (routes (config ctx)))
    ++ global_steps ctx.
Proof.
  intros Hout%chain_dirname_outside Hin. destruct Hout.
  apply elem_of_app in Hin as [Hin|Hin].
  - apply route_steps_write in Hin as (route&_&->&_).
    etrans; [apply getTypesPath_inside|apply dirname_prefix].
  - apply global_steps_write in Hin as [[-> _]|[-> _]]; apply join_below.
Qed.

(** What a step that went through leaves behind at the end of a
    program that only creates: a written path holds a file, the
    directories made are directories. *)
Lemma apply_made steps d r F c :
  Forall keeps steps → apply steps d = (Ret r, F) → Do c ∈ steps →
  match c with
  | RmSync _ => True
  | MkdirSync q => ∀ q', q' ∈ chain q → F !! q' = Some Dir
  | WriteFileSync p _ => p ≠ [] ∧ ∃ content, F !! p = Some (File content)
  end.
Proof.
  intros Hk. revert d. induction Hk as [|s steps Hs Hk IH]; intros d; simpl.
  - by intros _ ?%elem_of_nil.
  - destruct s as [c0|e]; [|done].
    destruct (exec c0 d) as [d'|e] eqn:Hc; [|done].
    intros Hrun [[= ->]|Hin]%elem_of_cons; [|by eapply IH].
    pose proof (apply_kinds_kept steps d' _ F Hk Hrun) as Hkept.
    destruct c0 as [p|q|p content]; [done| |]; simpl in Hc.
    + apply mkdir_Ret in Hc as [_ ->]. intros q' Hq'. apply Hkept.
      rewrite lookup_mkdirs. by rewrite decide_True.
    + apply write_Ret in Hc as ([Hne _]%is_dir_false_lookup&_&->). split; [done|].
      destruct (Hkept p) as [_ Hfile]. apply (Hfile content), lookup_insert_eq.
Qed.

Lemma writeAll_console ctx w : console (writeAll ctx w).2 = console w.
Proof. rewrite writeAll_script. apply play_apply. Qed.

End disk_after_script.

Lemma prune_nothing dir d : subtree dir d = ∅ → prune dir d = d.
Proof.
  intros Hempty. apply map_eq. intros p. rewrite lookup_prune.
  destruct (decide (dir `prefix_of` p)) as [Hp|]; [|done].
  apply (f_equal (λ m : Disk, m !! p)) in Hempty.
  by rewrite lookup_subtree, decide_True, lookup_empty in Hempty.
Qed.

Lemma subtree_prune dir d : subtree dir (prune dir d) = ∅.
Proof.
  apply map_eq. intros p. rewrite lookup_subtree, lookup_prune, lookup_empty.
  by destruct (decide (dir `prefix_of` p)).
Qed.

(** The calls one route gives rise to. *)
Abbreviation route_calls ctx :=
  (λ (route : RouteManifestEntry) (content : string),
     [MkdirSync (Path_dirname (getTypesPath ctx route));
      WriteFileSync (getTypesPath ctx route) content]).

Lemma route_steps_all_calls ctx (l : list RouteManifestEntry) tail cs :
  concat (route_steps ctx <$> l) ++ tail = Do <$> cs →
  ∃ contents cs',
    Forall2 (λ route content, generate ctx route = Ret content) l contents ∧
    cs = concat (zip_with (route_calls ctx) l contents) ++ cs' ∧
    tail = Do <$> cs'.
Proof.
  revert cs. induction l as [|route l IH]; intros cs; csimpl.
  - intros ->. exists [], cs. by split_and!.
  - unfold route_steps at 1. destruct (generate ctx route) as [content|e] eqn:Hg.
    + destruct cs as [|c1 [|c2 cs]]; csimpl; try done.
      intros [= <- <- Hrest]. destruct (IH cs Hrest) as (contents&cs'&Hall&->&->).
      exists (content :: contents), cs'. split_and!; [by constructor|done|done].
    + by destruct cs.
Qed.

(** C1. Running [writeAll] a second time on the world the first run
    left, with the same context, ends the same way and leaves the
    same disk. And the files below the output directory after a run
    that returns are the same from whatever world the run starts:
    they are a function of the context alone. *)
Theorem writeAll_idempotent ctx w :
  let first := writeAll ctx w in
  let second := writeAll ctx first.2 in
  second.1 = first.1 ∧
  disk second.2 = disk first.2 ∧
  ∀ w', first.1 = Ret () → (writeAll ctx w').1 = Ret () →
        subtree (getTypesDir ctx) (disk (writeAll ctx w').2)
        = subtree (getTypesDir ctx) (disk first.2).
Proof.
  cbv zeta. pose proof (writeAll_apply ctx w) as Hrun.
  pose proof (apply_twice (getTypesDir ctx) _ _ _ _ (script_keeps ctx)
                (script_writes_inside ctx) Hrun) as Hagain.
  pose proof (writeAll_apply ctx (writeAll ctx w).2) as Hrun'.
  unfold script in Hrun'. rewrite Hagain in Hrun'. injection Hrun' as Hr Hd.
  split_and!; [done|done|].
  intros w' Hok Hok'.
  destruct (writeAll_cases ctx w) as [(_&Hthrow&_)|[_ Hpass]]; [congruence|].
  destruct (writeAll_cases ctx w') as [(_&Hthrow&_)|[_ Hpass']]; [congruence|].
  rewrite Hok in Hpass. rewrite Hok' in Hpass'.
  apply (apply_subtree _ _ _ _ _ _ (script_keeps ctx) Hpass' Hpass).
  by rewrite !subtree_prune.
Qed.


(* ------------------------------------------------------------------- *)
(** ** The listener and the start *)

Lemma writeAll_leaves_trace ctx w : trace (writeAll ctx w).2 ≠ trace w.
Proof.
  rewrite writeAll_script. unfold script. cbn [play]. rewrite bind_unfold.
  destruct (call_spec (RmSync (getTypesDir ctx)) w) as (w1&->&_&Ht&_).
  assert (∀ rest, trace w ++ [RmSync (getTypesDir ctx)] ++ rest ≠ trace w) as Hlonger.
  { intros rest Heq. apply (f_equal length) in Heq.
    rewrite !length_app in Heq. cbn in Heq. lia. }
  destruct (exec _ _).
  - match goal with |- context [play ?s w1] =>
      destruct (play_trace s w1) as (rest&Hrest&_) end.
    rewrite Hrest, Ht, <- app_assoc. apply Hlonger.
  - cbn [snd]. rewrite Ht. apply (Hlonger []).
Qed.

(** C2. On a change notification whose reload failed the listener
    returns, leaves its context as it was, in particular [ctx.config],
    makes no file system call and leaves the disk as it was; the one
    thing it does is hand the error to the logger, if there is one. *)
Theorem onChange_failed_reload logger error changed routeChanged s :
  let ev := {| result := Err error;
               configChanged := changed;
               routeConfigChanged := routeChanged |} in
  let after := onChange logger ev s in
  after.1 = Ret () ∧
  ctx after.2 = ctx s ∧
  config (ctx after.2) = config (ctx s) ∧
  trace (world after.2) = trace (world s) ∧
  disk (world after.2) = disk (world s) ∧
  console (world after.2) =
    console (world s)
    ++ match logger with
       | Some _ => [{| level := Failure; text := red error;
                       options := {| timestamp := true; clear := true |} |}]
       | None => []
       end.
Proof.
  cbv zeta. unfold onChange. cbn [result]. unfold logger_error, log.
  destruct logger; cbn; split_and!; try done. by rewrite app_nil_r.
Qed.

(** C3. On a change notification with a successful reload and
    neither flag set the listener returns and leaves the world as it
    was: no file system call is made and the disk is untouched. In
    particular [writeAll] was not run, for every run of it leaves
    calls in the trace. *)
Theorem onChange_nothing_changed logger value s :
  let ev := {| result := Ok value;
               configChanged := false;
               routeConfigChanged := false |} in
  let after := onChange logger ev s in
  after.1 = Ret () ∧
  world after.2 = world s ∧
  trace (world after.2) = trace (world s) ∧
  disk (world after.2) = disk (world s) ∧
  ∀ c w, trace (writeAll c w).2 ≠ trace w.
Proof.
  cbv zeta. unfold onChange. cbn. split_and!; try done. apply writeAll_leaves_trace.
Qed.

(** C10. On a change notification with a successful reload the
    listener assigns the new configuration to [ctx.config], whatever
    the flags say and however [writeAll] ends; the rest of the
    context stays. With neither flag set this assignment is all that
    happens: the world is left as it was. *)
Theorem onChange_assigns_config logger value changed routeChanged s :
  let ev := {| result := Ok value;
               configChanged := changed;
               routeConfigChanged := routeChanged |} in
  let after := onChange logger ev s in
  config (ctx after.2) = value ∧
  configLoader (ctx after.2) = configLoader (ctx s) ∧
  rootDirectory (ctx after.2) = rootDirectory (ctx s) ∧
  onChange logger {| result := Ok value;
                     configChanged := false;
                     routeConfigChanged := false |} s
  = (Ret (), {| ctx := assign_config value (ctx s); world := world s |}).
Proof.
  cbv zeta. unfold onChange. cbn [result configChanged routeConfigChanged].
  split_and!; [| | |done].
  all: destruct (changed || routeChanged); [|done].
  all: rewrite bind_unfold.
  all: destruct (writeAll (assign_config value (ctx s)) (world s)) as [[[]|e] w1]; [|done].
  all: by destruct (logger_info _ _ _ w1).
Qed.

(** C7. When the first [getConfig()] fails, [createContext] throws
    an [Error] with the loader's message and the world stays as it
    was; so do [run] and [watch], which throw the same error before any
    file system call and before anything is logged, and [watch] returns
    no context for a listener to close over. *)
Theorem startup_fails_on_bad_config rootDirectory mode logger error w :
  (∀ watching,
     getConfig (createConfigLoader rootDirectory mode watching) = Err error →
     createContext rootDirectory watching mode w = (Throw (Error error), w)) ∧
  (getConfig (createConfigLoader rootDirectory mode false) = Err error →
   run rootDirectory mode w = (Throw (Error error), w)) ∧
  (getConfig (createConfigLoader rootDirectory mode true) = Err error →
   watch rootDirectory mode logger w = (Throw (Error error), w)).
Proof.
  assert (∀ watching,
     getConfig (createConfigLoader rootDirectory mode watching) = Err error →
     createContext rootDirectory watching mode w = (Throw (Error error), w)) as Hctx.
  { intros watching Herr. unfold createContext. by rewrite Herr. }
  split_and!; [done| |].
  - intros Herr. unfold run. by rewrite bind_unfold, Hctx.
  - intros Herr. unfold watch. by rewrite bind_unfold, Hctx.
Qed.

(* ------------------------------------------------------------------- *)
(** ** The global parameter map *)

Local Abbreviation adds := (λ (s : StringSet) (x : string), Set_add x s).

Lemma Set_add_elem x y s : y ∈ Set_add x s ↔ y = x ∨ y ∈ s.
Proof.
  unfold Set_add. case_bool_decide as Hin.
  - split; [by right|]. by intros [->|?].
  - rewrite elem_of_app, list_elem_of_singleton. split; intros [?|?]; auto.
Qed.

Lemma Set_add_NoDup x s : NoDup s → NoDup (Set_add x s).
Proof.
  intros Hnd. unfold Set_add. case_bool_decide as Hin; [done|].
  apply NoDup_app. split_and!; [done| |apply NoDup_singleton].
  by intros y Hy ->%list_elem_of_singleton.
Qed.

Lemma collected_elem l s0 x : x ∈ foldl adds s0 l ↔ x ∈ s0 ∨ x ∈ l.
Proof.
  revert s0. induction l as [|y l IH]; intros s0; cbn [foldl].
  - split; [by left|]. by intros [?|?%elem_of_nil].
  - rewrite IH, Set_add_elem, elem_of_cons. tauto.
Qed.

Lemma collected_NoDup l s0 : NoDup s0 → NoDup (foldl adds s0 l).
Proof.
  revert s0. induction l as [|y l IH]; intros s0 Hnd; cbn [foldl]; [done|].
  by apply IH, Set_add_NoDup.
Qed.

Lemma Set_add_old x s : x ∈ s → Set_add x s = s.
Proof. intros Hin. unfold Set_add. by rewrite bool_decide_eq_true_2. Qed.

Lemma Set_add_new x s : x ∉ s → Set_add x s = s ++ [x].
Proof. intros Hin. unfold Set_add. by rewrite bool_decide_eq_false_2. Qed.

(** A key that comes before another one was seen first. *)
Lemma collected_order l k1 a k2 b k3 :
  foldl adds [] l = k1 ++ a :: k2 ++ b :: k3 →
  ∃ l1 l2, l = l1 ++ a :: l2 ∧ (a ∉ l1) ∧ (b ∉ l1).
Proof.
  revert k3. induction l as [|x l IH] using rev_ind; intros k3.
  - cbn. by destruct k1.
  - rewrite foldl_app. cbn [foldl].
    destruct (decide (x ∈ foldl adds [] l)) as [Hin|Hin].
    + rewrite Set_add_old by done.
      intros (l1&l2&->&?&?)%IH. exists l1, (l2 ++ [x]).
      by rewrite <- app_assoc.
    + rewrite Set_add_new by done.
      destruct k3 as [|y k3 _] using rev_ind.
      * change (k1 ++ a :: k2 ++ [b]) with (k1 ++ (a :: k2) ++ [b]).
        rewrite (app_assoc k1). intros [Hl <-]%app_inj_tail.
        assert (a ∈ l) as Ha.
        { assert (a ∈ foldl adds [] l) as Ha.
          { rewrite Hl. apply elem_of_app. right. left. }
          by apply collected_elem in Ha as [?%elem_of_nil|?]. }
        apply list_elem_of_split_l in Ha as (l1&l2&->&Hl1).
        exists l1, (l2 ++ [x]). split_and!; [by rewrite <- app_assoc|done|].
        intros Hb. apply Hin. apply collected_elem. right. apply elem_of_app. by left.
      * replace (k1 ++ a :: k2 ++ b :: k3 ++ [y])
          with ((k1 ++ a :: k2 ++ b :: k3) ++ [y])
          by (rewrite <- !app_assoc; csimpl; by rewrite <- !app_assoc).
        intros [Hl <-]%app_inj_tail.
        destruct (IH k3) as (l1&l2&->&?&?); [done|].
        exists l1, (l2 ++ [x]). by rewrite <- app_assoc.
Qed.

Lemma not_path_true p : not_path p = true ↔ p = None ∨ p = Some "".
Proof.
  destruct p as [s|]; simpl; [|by split; [left|]].
  rewrite bool_decide_eq_true. split; [intros ->; by right|]. by intros [?|[= ->]].
Qed.

Lemma register_visit_skip ctx set route :
  ¬ contributes route → register_visit ctx set route = Ret set.
Proof.
  intros Hno. unfold register_visit.
  rewrite bool_decide_eq_true_2; [|intros Hid; apply Hno; by left].
  destruct (not_path (route_path route)) eqn:Hp; [done|].
  destruct Hno. right. destruct (route_path route) as [s|]; [|done].
  exists s. split; [done|]. intros ->. done.
Qed.

Lemma register_visit_add ctx set route lineage :
  contributes route →
  Route_lineage (routes (config ctx)) route = Ret lineage →
  register_visit ctx set route = Ret (Set_add (Route_fullpath lineage) set).
Proof.
  intros Hyes Hl. unfold register_visit.
  destruct (bool_decide (route_id route ≠ "root") && not_path (route_path route)) eqn:Hc.
  - apply andb_true_iff in Hc as [Hid%bool_decide_eq_true Hp%not_path_true].
    destruct Hyes as [?|(s&Hs&?)]; [done|]. rewrite Hs in Hp. by destruct Hp as [|[= ->]].
  - by rewrite Hl.
Qed.

Lemma register_visit_Ret ctx set route set' :
  register_visit ctx set route = Ret set' →
  (¬ contributes route ∧ set' = set) ∨
  (contributes route ∧ ∃ x, has_fullpath ctx route x ∧ set' = Set_add x set).
Proof.
  destruct (decide (contributes route)) as [Hyes|Hno].
  - destruct (Route_lineage (routes (config ctx)) route) as [lineage|e] eqn:Hl.
    + rewrite (register_visit_add _ _ _ lineage) by done. intros [= <-].
      right. split; [done|]. exists (Route_fullpath lineage). split; [|done].
      by exists lineage.
    + unfold register_visit.
      destruct (bool_decide (route_id route ≠ "root") && not_path (route_path route)) eqn:Hc.
      * apply andb_true_iff in Hc as [Hid%bool_decide_eq_true Hp%not_path_true].
        destruct Hyes as [?|(s&Hs&?)]; [done|]. rewrite Hs in Hp.
        by destruct Hp as [|[= ->]].
      * by rewrite Hl.
  - rewrite register_visit_skip by done. intros [= <-]. by left.
Qed.

(** The set after the loop: the full paths of the contributing
    routes, added in the order of the routes. *)
Lemma collect_fullpaths ctx l set0 set :
  foldM (register_visit ctx) set0 l = Ret set →
  ∃ paths, Forall2 (has_fullpath ctx) (filter contributes l) paths
           ∧ set = foldl adds set0 paths.
Proof.
  revert set0. induction l as [|route l IH]; intros set0; cbn [foldM].
  - intros [= <-]. exists []. split; [constructor|done].
  - destruct (register_visit ctx set0 route) as [set1|e] eqn:Hv; [|done].
    change (Ret set1 ≫= _) with (foldM (register_visit ctx) set1 l).
    intros (paths&Hall&->)%IH.
    apply register_visit_Ret in Hv as [[Hno ->]|(Hyes&x&Hx&->)].
    + exists paths. by rewrite filter_cons_False.
    + exists (x :: paths). rewrite filter_cons_True by done. split; [by constructor|done].
Qed.

Lemma alias_keys_typeParams fullpaths :
  alias_keys (register_typeParams fullpaths) = fullpaths.
Proof.
  unfold register_typeParams, alias_keys, literal_keys, Array_from.
  rewrite <- list_fmap_compose. induction fullpaths as [|x l IH]; [done|].
  rewrite fmap_cons, IH. done.
Qed.

Lemma has_fullpath_elem ctx (l : list RouteManifestEntry) paths x :
  Forall2 (has_fullpath ctx) l paths →
  x ∈ paths ↔ ∃ route, route ∈ l ∧ has_fullpath ctx route x.
Proof.
  induction 1 as [|route y l paths Hy Hall IH].
  - split; [by intros ?%elem_of_nil|]. by intros (?&?%elem_of_nil&_).
  - rewrite elem_of_cons, IH. split.
    + intros [->|(r&?&?)]; [exists route; split; [left|done]|].
      exists r. split; [by right|done].
    + intros (r&[->|?]%elem_of_cons&Hr); [left|right; by exists r].
      destruct Hy as (l1&Hl1&<-), Hr as (l2&Hl2&<-). congruence.
Qed.

(** C4. In [register] a route that is not the root and has no path,
    or the empty one, is passed over: the set stays as it is and the
    lineage is not even asked for. A route that is the root or has a
    path that is not empty adds its full path. So the set the loop
    ends with holds exactly the full paths of the routes of the second
    kind. *)
Theorem register_key_collection ctx :
  (∀ set route,
     route_id route ≠ "root" →
     route_path route = None ∨ route_path route = Some "" →
     register_visit ctx set route = Ret set) ∧
  (∀ set route lineage,
     route_id route = "root" ∨ (∃ s, route_path route = Some s ∧ s ≠ "") →
     Route_lineage (routes (config ctx)) route = Ret lineage →
     register_visit ctx set route = Ret (Set_add (Route_fullpath lineage) set)) ∧
  (∀ fullpaths,
     register_fullpaths ctx = Ret fullpaths →
     ∀ x, x ∈ fullpaths ↔
          ∃ route lineage,
            route ∈ Object_values (routes (config ctx)) ∧
            (route_id route = "root" ∨ ∃ s, route_path route = Some s ∧ s ≠ "") ∧
            Route_lineage (routes (config ctx)) route = Ret lineage ∧
            Route_fullpath lineage = x).
Proof.
  split_and!.
  - intros set route Hid Hp. apply register_visit_skip.
    intros [?|(s&Hs&?)]; [done|]. rewrite Hs in Hp. by destruct Hp as [|[= ->]].
  - intros set route lineage Hyes Hl. by apply register_visit_add.
  - intros fullpaths (paths&Hall&->)%collect_fullpaths x.
    rewrite collected_elem, (has_fullpath_elem _ _ _ _ Hall). split.
    + intros [?%elem_of_nil|(route&[? ?]%list_elem_of_filter&lineage&?&?)]; [done|].
      by exists route, lineage.
    + intros (route&lineage&?&?&?&?). right. exists route.
      split; [by apply list_elem_of_filter|by exists lineage].
Qed.

(** C5. The keys of the [Params] alias are the members of the set:
    each full path is a key once, however many routes have it, every
    key is the full path of a contributing route, and a key stands
    before another one exactly when its first route comes first in
    the route collection. [paths] lists the full paths of the
    contributing routes in the order of the routes. *)
Theorem register_keys_once_in_order ctx fullpaths :
  register_fullpaths ctx = Ret fullpaths →
  let keys := alias_keys (register_typeParams fullpaths) in
  register ctx
  = Ret (join (nl +:+ nl)
           [register_header ctx; Babel_generate (register_typeParams fullpaths)]) ∧
  ∃ paths,
    Forall2 (has_fullpath ctx)
      (filter contributes (Object_values (routes (config ctx)))) paths ∧
    NoDup keys ∧
    (∀ x, x ∈ keys ↔ x ∈ paths) ∧
    (∀ k1 a k2 b k3,
       keys = k1 ++ a :: k2 ++ b :: k3 →
       ∃ l1 l2, paths = l1 ++ a :: l2 ∧ (a ∉ l1) ∧ (b ∉ l1)).
Proof.
  intros Hset. cbv zeta. rewrite alias_keys_typeParams. split.
  { unfold register. by rewrite Hset. }
  apply collect_fullpaths in Hset as (paths&Hall&->).
  exists paths. split_and!; [done| | |].
  - apply collected_NoDup. constructor.
  - intros x. rewrite collected_elem. split; [|by right].
    by intros [?%elem_of_nil|?].
  - apply collected_order.
Qed.

End typegen_facts.
(* ===================================================================== *)
(** * The properties on the sample project *)
(* ===================================================================== *)

Section sample_runs.

Import Params Sample.

#[local] Existing Instance Sample.imports.

(** The examples of the specification's section 8. *)
Example parse_required : parse "/users/:id" = [("id", true)].
Proof. reflexivity. Qed.

Example parse_optional : parse "/users/:id?" = [("id", false)].
Proof. reflexivity. Qed.

Example parse_splat : parse "/files/*" = [("*", true)].
Proof. reflexivity. Qed.

Example sample_fullpaths :
  register_fullpaths sample_ctx = Ret [""; "posts/:slug"; "files/*"].
Proof. reflexivity. Qed.

Example sample_run_returns : (writeAll sample_ctx stale_world).1 = Ret ().
Proof. vm_compute. reflexivity. Qed.

Example sample_run_clears_stale_output :
  disk (writeAll sample_ctx stale_world).2
    !! ["app"; ".react-router"; "types"; "old.d.ts"] = None
  ∧ disk (writeAll sample_ctx stale_world).2 !! ["app"; "package.json"]
    = Some (File "{}").
Proof. vm_compute. split; reflexivity. Qed.

Lemma parse_keys_exact_witness :
  ¬ declares "users" "users" true ∧ keys (parse "/users/:id?/*") = ["id"; "*"].
Proof.
  destruct (parse_keys_exact "/users/:id?/*") as (result&<-&_&_&_&Hstatic).
  split; [|reflexivity].
  apply Hstatic. right. split; [discriminate|]. intros rest. discriminate.
Defined.

Lemma parse_last_occurrence_wins_witness :
  get "id" (parse "/a/:id?/b/:id") = Some true ∧
  NoDup (keys (parse "/a/:id?/b/:id")).
Proof.
  apply (proj1 parse_last_occurrence_wins
           "/a/:id?/b/:id" [""; "a"; ":id?"; "b"] ":id" [] "id" true).
  - reflexivity.
  - apply segment_param_declares. reflexivity.
  - intros seg' b' Hin. inversion Hin.
Defined.

Lemma writeAll_idempotent_witness :
  subtree (getTypesDir sample_ctx) (disk (writeAll sample_ctx empty_world).2)
  = subtree (getTypesDir sample_ctx) (disk (writeAll sample_ctx stale_world).2).
Proof.
  apply (proj2 (proj2 (writeAll_idempotent sample_ctx stale_world)) empty_world).
  - vm_compute. reflexivity.
  - vm_compute. reflexivity.
Defined.

Lemma onChange_failed_reload_witness :
  let s := {| ctx := sample_ctx; world := stale_world |} in
  let after :=
    onChange (Some ViteLogger)
      {| result := Err "Route config is invalid";
         configChanged := true; routeConfigChanged := true |} s in
  config (ctx after.2) = sample_config ∧
  trace (world after.2) = [] ∧
  disk (world after.2) = disk stale_world.
Proof.
  destruct (onChange_failed_reload (Some ViteLogger) "Route config is invalid"
              true true {| ctx := sample_ctx; world := stale_world |})
    as (_&_&Hconfig&Htrace&Hdisk&_).
  cbv zeta. split_and!; [exact Hconfig|exact Htrace|exact Hdisk].
Defined.

Lemma onChange_nothing_changed_witness :
  trace (writeAll sample_ctx stale_world).2 ≠ trace stale_world.
Proof.
  destruct (onChange_nothing_changed None other_config
              {| ctx := sample_ctx; world := stale_world |})
    as (_&_&_&_&Hruns).
  apply Hruns.
Defined.

Lemma register_key_collection_witness :
  register_visit sample_ctx [""] layout_route = Ret [""] ∧
  ("posts/:slug" ∈ [""; "posts/:slug"; "files/*"] ↔
   ∃ route lineage,
     route ∈ Object_values manifest ∧
     (route_id route = "root" ∨ ∃ s, route_path route = Some s ∧ s ≠ "") ∧
     Route.lineage manifest route = Ret lineage ∧
     Route.fullpath lineage = "posts/:slug").
Proof.
  destruct (register_key_collection sample_ctx) as (Hskip&_&Hset).
  split.
  - apply Hskip; [discriminate|]. left. reflexivity.
  - apply (Hset [""; "posts/:slug"; "files/*"]). reflexivity.
Defined.

Lemma register_keys_once_in_order_witness :
  register sample_ctx
  = Ret (join (nl +:+ nl)
           [register_header sample_ctx;
            Babel_generate (register_typeParams [""; "posts/:slug"; "files/*"])]).
Proof.
  apply (register_keys_once_in_order sample_ctx [""; "posts/:slug"; "files/*"]).
  reflexivity.
Defined.



Lemma startup_fails_on_bad_config_witness :
  run "/nowhere" "development" stale_world
  = (Throw (Error "Could not find a root route module"), stale_world) ∧
  watch "/nowhere" "development" (Some ViteLogger) stale_world
  = (Throw (Error "Could not find a root route module"), stale_world).
Proof.
  destruct (startup_fails_on_bad_config "/nowhere" "development" (Some ViteLogger)
              "Could not find a root route module" stale_world) as (_&Hrun&Hwatch).
  split; [apply Hrun|apply Hwatch]; reflexivity.
Defined.

Lemma onChange_assigns_config_witness :
  let s := {| ctx := sample_ctx; world := stale_world |} in
  config (ctx (onChange None
                 {| result := Ok other_config;
                    configChanged := false; routeConfigChanged := false |} s).2)
  = other_config ∧
  config (ctx (onChange None
                 {| result := Ok other_config;
                    configChanged := true; routeConfigChanged := false |} s).2)
  = other_config.
Proof.
  split.
  - apply (onChange_assigns_config None other_config false false
             {| ctx := sample_ctx; world := stale_world |}).
  - apply (onChange_assigns_config None other_config true false
             {| ctx := sample_ctx; world := stale_world |}).
Defined.

End sample_runs.
(* ===================================================================== *)
(** * Further properties of the output writer *)
(* ===================================================================== *)

Section writer_facts.

Context `{Imports}.

Implicit Types (d F : Disk) (p q : Path).

(** On a well-formed disk everything above an entry is a directory. *)
Lemma well_formed_above d p q :
  well_formed d → is_Some (d !! p) → q ∈ chain (Path_dirname p) →
  d !! q = Some Dir.
Proof.
  intros Hwf. remember (length p) as n eqn:Hn. revert p Hn.
  induction n as [n IH] using lt_wf_ind. intros p -> Hp Hq.
  pose proof (Hwf p Hp) as Hparent.
  pose proof (chain_nonempty _ _ Hq) as Hne.
  apply elem_of_chain in Hq as [_ Hq].
  destruct (Path_dirname p) as [|a r] eqn:Hr; [by apply prefix_nil_inv in Hq|].
  apply is_dir_true_lookup in Hparent as [?|Hparent]; [done|].
  destruct (decide (q = a :: r)) as [->|Hneq]; [done|].
  apply (IH (length (a :: r))) with (p := a :: r); [|done|by eexists|].
  - apply (f_equal length) in Hr. unfold Path_dirname in Hr.
    destruct p as [|x p _] using rev_ind; [done|].
    rewrite removelast_last in Hr. rewrite length_app, Hr. cbn. lia.
  - apply elem_of_chain. split; [done|].
    destruct Hq as [k Hk]. destruct k as [|y k _] using rev_ind.
    { rewrite app_nil_r in Hk. by destruct Hneq. }
    unfold Path_dirname. rewrite Hk, app_assoc, removelast_last. by eexists.
Qed.

(** So nothing lies at or below a path that a regular file stands
    above. *)
Lemma well_formed_below_file d (Hwf : well_formed d) dir p :
  dir `prefix_of` p → blocked d dir = false ∨ d !! p = None.
Proof.
  intros Hp. destruct (blocked d dir) eqn:Hblocked; [right|by left].
  destruct (d !! p) as [x|] eqn:Hx; [exfalso|done].
  unfold blocked in Hblocked.
  apply existsb_exists in Hblocked as (q&Hq%list_elem_of_In&Hfile).
  assert (q ∈ chain (Path_dirname p)) as Hq'.
  { apply elem_of_chain in Hq as [Hne Hq]. apply elem_of_chain. split; [done|].
    destruct Hp as [k ->]. destruct k as [|y k _] using rev_ind.
    - by rewrite app_nil_r.
    - unfold Path_dirname at 1. rewrite app_assoc, removelast_last.
      etrans; [done|]. etrans; [apply dirname_prefix|]. by eexists. }
  pose proof (well_formed_above d p q Hwf (mk_is_Some _ _ Hx) Hq') as Hdir.
  unfold is_file in Hfile. pose proof (chain_nonempty _ _ Hq) as Hne.
  destruct q; [done|]. by rewrite kind_cons, Hdir in Hfile.
Qed.

(** X1. [writeAll] leaves alone whatever lies outside the output
    directory and is neither a declaration file of a route nor a
    directory above one, whether the run returns or throws. *)
Theorem writeAll_frame ctx w p :
  ¬ getTypesDir ctx `prefix_of` p →
  (∀ route, route ∈ Object_values (routes (config ctx)) →
            ¬ p `prefix_of` getTypesPath ctx route) →
  disk (writeAll ctx w).2 !! p = disk w !! p.
Proof.
  intros Hout Hroutes.
  destruct (writeAll_cases ctx w) as [(_&_&->)|[_ Hrun]]; [done|].
  destruct (apply_lookup _ _ _ _ p (script_keeps ctx) Hrun)
    as [->|[(content&Hin&_)|(q&Hin&Hq&_)]].
  - rewrite lookup_prune. by destruct (decide (getTypesDir ctx `prefix_of` p)).
  - apply elem_of_app in Hin as [Hin|Hin].
    + apply route_steps_write in Hin as (route&Hroute&->&_).
      by destruct (Hroutes route Hroute).
    + destruct Hout.
      apply global_steps_write in Hin as [[-> _]|[-> _]]; apply join_below.
  - apply elem_of_app in Hin as [Hin|Hin]; [|by apply global_steps_mkdir in Hin].
    apply route_steps_mkdir in Hin as (route&Hroute&->).
    apply elem_of_chain in Hq as [_ Hq]. destruct (Hroutes route Hroute).
    etrans; [done|apply dirname_prefix].
Qed.


(** X3. After a run that returns the two global files are in place,
    [+register.ts] with what [register] returned and [+virtual.d.ts]
    with the constant; and the declaration file of a route holds
    what [generate] returned for it, provided its path is not that
    of a global file and the routes that share the path, if any, are
    given the same content. *)
Theorem writeAll_output_files ctx w :
  (writeAll ctx w).1 = Ret () →
  let after := disk (writeAll ctx w).2 in
  (∃ registered, register ctx = Ret registered ∧
                 after !! registerPath ctx = Some (File registered)) ∧
  after !! virtualPath ctx = Some (File virtual) ∧
  ∀ route, route ∈ Object_values (routes (config ctx)) →
    ∃ content, generate ctx route = Ret content ∧
      (getTypesPath ctx route ≠ registerPath ctx →
       getTypesPath ctx route ≠ virtualPath ctx →
       (∀ route', route' ∈ Object_values (routes (config ctx)) →
                  getTypesPath ctx route' = getTypesPath ctx route →
                  generate ctx route' = Ret content) →
       after !! getTypesPath ctx route = Some (File content)).
Proof.
  intros Hok. cbv zeta.
  destruct (writeAll_cases ctx w) as [(_&Hthrow&_)|[_ Hrun]]; [congruence|].
  rewrite Hok in Hrun. set (F := disk (writeAll ctx w).2) in *.
  pose proof Hrun as Hparts. rewrite apply_app in Hparts.
  destruct (apply (concat _) _) as [[[]|e] d1] eqn:Hroutes; [|done].
  unfold global_steps in Hparts.
  destruct (register ctx) as [registered|e] eqn:Hreg; [|done].
  cbn [apply exec] in Hparts.
  destruct (write _ registered d1) as [d2|e] eqn:Hw1; [|done].
  destruct (write _ virtual d2) as [d3|e] eqn:Hw2; [|done].
  injection Hparts as <-.
  apply write_Ret in Hw1 as (_&_&->), Hw2 as (_&_&->).
  split_and!.
  - exists registered. split; [done|]. unfold registerPath.
    rewrite lookup_insert_ne, lookup_insert_eq; [done|].
    unfold Path_join. intros Heq. by apply app_inj_1 in Heq as [_ [=]].
  - unfold virtualPath. apply lookup_insert_eq.
  - intros route Hroute.
    assert (∃ content, generate ctx route = Ret content) as [content Hgen].
    { destruct (generate ctx route) as [content|e] eqn:Hgen; [by exists content|].
      exfalso. clear -Hroutes Hroute Hgen.
      revert Hroutes. generalize (prune (getTypesDir ctx) (disk w)).
      induction (Object_values (routes (config ctx))) as [|r l IH]; intros d.
      - by apply elem_of_nil in Hroute.
      - cbn [fmap list_fmap concat]. rewrite apply_app.
        apply elem_of_cons in Hroute as [<-|Hroute].
        + unfold route_steps at 1. by rewrite Hgen.
        + destruct (apply (route_steps ctx r) d) as [[[]|?] d']; [|done].
          by apply IH. }
    exists content. split; [done|]. intros Hnreg Hnvirt Hshared.
    apply (apply_file_written _ _ _ _ content (script_keeps ctx) Hrun).
    + apply elem_of_app. left. apply elem_of_concat.
      exists (route_steps ctx route). split; [by apply list_elem_of_fmap_2|].
      unfold route_steps. rewrite Hgen. right. left.
    + intros c' [Hin|Hin]%elem_of_app.
      * apply route_steps_write in Hin as (route'&Hroute'&Hsame&Hgen').
        rewrite (Hshared route' Hroute') in Hgen' by done. congruence.
      * by apply global_steps_write in Hin as [[? _]|[? _]].
Qed.


Lemma length_route_calls ctx (l : list RouteManifestEntry) (contents : list string) :
  length l = length contents →
  length (concat (zip_with
                    (λ route content,
                       [MkdirSync (Path_dirname (getTypesPath ctx route));
                        WriteFileSync (getTypesPath ctx route) content])
                    l contents))
  = 2 * length l.
Proof.
  revert contents. induction l as [|route l IH]; intros [|c contents]; simpl; try done.
  intros [= Hlen]. rewrite (IH _ Hlen). lia.
Qed.

(** X5. A run that returns has made two file system calls for each
    route and three more: the removal and the two global writes. *)
Theorem writeAll_call_count ctx w :
  (writeAll ctx w).1 = Ret () →
  length (trace (writeAll ctx w).2)
  = length (trace w) + 2 * length (Object_values (routes (config ctx))) + 3.
Proof.
  rewrite writeAll_script.
  destruct (play_trace (script ctx) w) as (cs&->&Hall). intros Hok.
  specialize (Hall Hok). unfold script in Hall.
  destruct cs as [|c cs]; [done|]. csimpl in Hall. injection Hall as _ Hall.
  apply route_steps_all_calls in Hall as (contents&cs'&Hgen&->&Hglobal).
  unfold global_steps in Hglobal.
  destruct (register ctx) as [registered|e]; [|by destruct cs'].
  destruct cs' as [|c1 [|c2 [|]]]; try done.
  rewrite length_app. cbn [length]. rewrite length_app, length_route_calls.
  - cbn [length]. lia.
  - by eapply Forall2_length.
Qed.

End writer_facts.
(* ===================================================================== *)
(** * Further properties of [register] and of the listener *)
(* ===================================================================== *)

Section driver_facts.

Context `{Imports}.

(** The loop of [register] throws at the first contributing route
    whose lineage throws. *)
Lemma collect_Throw ctx (l : list RouteManifestEntry) set0 e :
  foldM (register_visit ctx) set0 l = Throw e →
  ∃ pre route post,
    l = pre ++ route :: post ∧ contributes route ∧
    Route_lineage (routes (config ctx)) route = Throw e ∧
    ∀ r, r ∈ pre → contributes r →
         ∃ lineage, Route_lineage (routes (config ctx)) r = Ret lineage.
Proof.
  revert set0. induction l as [|route l IH]; intros set0; cbn [foldM]; [done|].
  destruct (register_visit ctx set0 route) as [set1|e'] eqn:Hv.
  - change (Ret set1 ≫= _) with (foldM (register_visit ctx) set1 l).
    intros (pre&r&post&->&Hr&He&Hpre)%IH.
    exists (route :: pre), r, post. split_and!; [done..|].
    intros r' [->|Hin]%elem_of_cons Hc; [|by apply Hpre].
    apply register_visit_Ret in Hv as [[Hno _]|(_&x&(lineage&Hl&_)&_)]; [done|].
    by exists lineage.
  - intros [= ->]. exists [], route, l.
    destruct (decide (contributes route)) as [Hyes|Hno].
    + destruct (Route_lineage (routes (config ctx)) route) as [lineage|e'] eqn:Hl.
      * by rewrite (register_visit_add _ _ _ lineage) in Hv.
      * split_and!; [done..| |by intros ? ?%elem_of_nil].
        unfold register_visit in Hv. rewrite Hl in Hv.
        destruct (_ && _); cbn in Hv; by simplify_eq.
    + by rewrite register_visit_skip in Hv.
Qed.

Lemma collect_Ret ctx (l : list RouteManifestEntry) set0 :
  (∀ r, r ∈ l → contributes r →
        ∃ lineage, Route_lineage (routes (config ctx)) r = Ret lineage) →
  ∃ set, foldM (register_visit ctx) set0 l = Ret set.
Proof.
  intros Hall. destruct (foldM (register_visit ctx) set0 l) as [set|e] eqn:Hf.
  - by exists set.
  - apply collect_Throw in Hf as (pre&route&post&->&Hc&He&_).
    destruct (Hall route) as [lineage Hl]; [|done|congruence].
    apply elem_of_app. right. left.
Qed.

(** X6. [register] returns exactly when [Route.lineage] returns for
    every route that contributes a key; the lineage of a route that is
    passed over is never asked for and cannot make it throw. When
    [register] throws, what it throws is the exception of the first
    contributing route, in the order of the routes, whose lineage
    throws. *)
Theorem register_throws_with_lineage ctx :
  ((∃ out, register ctx = Ret out) ↔
   ∀ route, route ∈ Object_values (routes (config ctx)) → contributes route →
            ∃ lineage, Route_lineage (routes (config ctx)) route = Ret lineage) ∧
  ∀ e, register ctx = Throw e →
       ∃ pre route post,
         Object_values (routes (config ctx)) = pre ++ route :: post ∧
         contributes route ∧
         Route_lineage (routes (config ctx)) route = Throw e ∧
         ∀ r, r ∈ pre → contributes r →
              ∃ lineage, Route_lineage (routes (config ctx)) r = Ret lineage.
Proof.
  unfold register, register_fullpaths. split; [split|].
  - intros [out Hout] route Hroute Hc.
    destruct (foldM _ _ _) as [set|e] eqn:Hf; [|done].
    destruct (Route_lineage (routes (config ctx)) route) as [lineage|e] eqn:Hl;
      [by exists lineage|].
    exfalso. clear Hout. revert Hf. generalize Set_new.
    induction (Object_values (routes (config ctx))) as [|r l IH]; intros set0.
    + by apply elem_of_nil in Hroute.
    + cbn [foldM]. destruct (register_visit ctx set0 r) as [set1|e'] eqn:Hv; [|done].
      change (Ret set1 ≫= _) with (foldM (register_visit ctx) set1 l).
      apply elem_of_cons in Hroute as [<-|Hroute]; [|by apply IH].
      apply register_visit_Ret in Hv as [[Hno _]|(_&x&(lineage&Hl'&_)&_)]; congruence.
  - intros Hall. destruct (collect_Ret ctx _ Set_new Hall) as [set ->]. by eexists.
  - intros e. destruct (foldM _ _ _) as [set|e'] eqn:Hf; [done|].
    intros [= ->]. by apply collect_Throw in Hf.
Qed.

(** X7. Each member of the [Params] alias is a required property
    named by a full path; its type lists the names [Params.parse]
    finds in that path, in the same order, each of type [string] and
    each optional exactly when the parser reports it as not
    required. *)
Theorem register_renders_params fullpaths i fullpath :
  fullpaths !! i = Some fullpath →
  ∃ inner,
    alias_members (register_typeParams fullpaths) !! i
    = Some (tsPropertySignature (stringLiteral fullpath)
              (tsTypeAnnotation (tsTypeLiteral inner)) None) ∧
    signature_key <$> inner = (Params_parse fullpath).*1 ∧
    signature_optional <$> inner
    = (λ entry, Some (negb entry.2)) <$> Params_parse fullpath ∧
    Forall (λ member, signature_type member = tsStringKeyword) inner.
Proof.
  intros Hi. unfold register_typeParams, alias_members, Array_from.
  rewrite list_lookup_fmap, Hi. eexists. split; [done|].
  induction (Params_parse fullpath) as [|[param isRequired] l IH]; [done|].
  destruct IH as (IH1&IH2&IH3). rewrite !fmap_cons.
  split_and!; [by rewrite IH1|by rewrite IH2|by constructor].
Qed.

(** A second run on a world with the disk the first run left ends
    like the first and leaves that disk. *)
Lemma writeAll_again c w w' :
  disk w' = disk (writeAll c w).2 →
  (writeAll c w').1 = (writeAll c w).1 ∧
  disk (writeAll c w').2 = disk (writeAll c w).2.
Proof.
  intros Hdisk. pose proof (writeAll_apply c w) as Hrun.
  pose proof (writeAll_apply c w') as Hrun'. rewrite Hdisk in Hrun'.
  pose proof (apply_twice (getTypesDir c) _ (disk w) _ _ (script_keeps c)
                (script_writes_inside c) Hrun) as Hagain.
  unfold script in Hrun'. rewrite Hagain in Hrun'. by injection Hrun' as <- <-.
Qed.

Lemma log_world logger l msg opts w :
  ∃ w', log logger l msg opts w = (Ret (), w') ∧
        disk w' = disk w ∧
        trace w' = trace w ∧
        console w' =
          console w ++
          match logger with
          | Some _ => [{| level := l; text := msg; options := opts |}]
          | None => []
          end.
Proof.
  unfold log. destruct logger; eexists; (split; [done|]); cbn; [done|].
  by rewrite app_nil_r.
Qed.

(** X8. On a successful reload with a flag set the listener ends as
    [writeAll] on the new configuration ends, with the disk and the
    calls of that run. The logger gets the line [regenerated types]
    when the run returns and nothing when it throws; in both cases
    [ctx.config] is the new configuration already. *)
Theorem onChange_regenerates logger value changed routeChanged s :
  changed || routeChanged = true →
  let ev := {| result := Ok value;
               configChanged := changed;
               routeConfigChanged := routeChanged |} in
  let ctx' := assign_config value (ctx s) in
  let pass := writeAll ctx' (world s) in
  let after := onChange logger ev s in
  after.1 = pass.1 ∧
  ctx after.2 = ctx' ∧
  disk (world after.2) = disk pass.2 ∧
  trace (world after.2) = trace pass.2 ∧
  console (world after.2) =
    console (world s)
    ++ match pass.1, logger with
       | Ret _, Some _ => [info_line "regenerated types"]
       | _, _ => []
       end.
Proof.
  intros Hflags. cbv zeta. unfold onChange.
  cbn [result configChanged routeConfigChanged]. rewrite Hflags, bind_unfold.
  pose proof (writeAll_console (assign_config value (ctx s)) (world s)) as Hconsole.
  destruct (writeAll (assign_config value (ctx s)) (world s)) as [[[]|e] w1].
  - unfold logger_info.
    destruct (log_world logger Info (green "regenerated types")
                {| timestamp := true; clear := true |} w1) as (w2&->&Hd&Ht&Hc).
    cbn in *. by rewrite Hc, Hconsole.
  - cbn in *. by rewrite Hconsole, app_nil_r.
Qed.

(** X9. Handling the same notification a second time, right after
    the first, ends the same way and changes neither the context nor
    the disk. *)
Theorem onChange_twice logger ev s :
  let once := onChange logger ev s in
  let twice := onChange logger ev once.2 in
  twice.1 = once.1 ∧
  ctx twice.2 = ctx once.2 ∧
  disk (world twice.2) = disk (world once.2).
Proof.
  cbv zeta. unfold onChange. destruct (result ev) as [value|error].
  - destruct (configChanged ev || routeConfigChanged ev); [|done].
    rewrite !bind_unfold. set (c := assign_config value (ctx s)).
    destruct (writeAll c (world s)) as [r w1] eqn:Hfirst.
    assert (∃ w1', (let '(r0, w0) :=
                      match r with
                      | Ret _ => logger_info logger (green "regenerated types")
                                   {| timestamp := true; clear := true |} w1
                      | Throw e => (Throw e, w1)
                      end in (r0, {| ctx := c; world := w0 |}))
                   = (r, {| ctx := c; world := w1' |}) ∧ disk w1' = disk w1)
      as (w1'&->&Hdisk).
    { destruct r as [[]|e]; [|by exists w1].
      unfold logger_info.
      destruct (log_world logger Info (green "regenerated types")
                  {| timestamp := true; clear := true |} w1) as (w2&->&Hd&_).
      by exists w2. }
    cbn [snd fst ctx world]. change (assign_config value c) with c.
    destruct (writeAll_again c (world s) w1') as [Hr Hd]; [by rewrite Hfirst|].
    rewrite Hfirst in Hr, Hd. cbn [fst snd] in Hr, Hd.
    destruct (writeAll c w1') as [r2 w2]. cbn [fst snd] in Hr, Hd. subst r2.
    destruct r as [[]|e]; [|cbn; by rewrite Hd, Hdisk].
    unfold logger_info.
    destruct (log_world logger Info (green "regenerated types")
                {| timestamp := true; clear := true |} w2) as (w3&->&Hd3&_).
    cbn. by rewrite Hd3, Hd, Hdisk.
  - unfold logger_error.
    destruct (log_world logger Failure (red error)
                {| timestamp := true; clear := true |} (world s)) as (w1&->&Hd1&_).
    cbn [fst snd ctx world].
    destruct (log_world logger Failure (red error)
                {| timestamp := true; clear := true |} w1) as (w2&->&Hd2&_).
    cbn. by rewrite Hd2.
Qed.

Lemma onChange_ctx logger ev s :
  ctx (onChange logger ev s).2 =
  match result ev with
  | Ok value => assign_config value (ctx s)
  | Err _ => ctx s
  end.
Proof.
  unfold onChange. destruct (result ev) as [value|error].
  - destruct (_ || _); [|done]. rewrite bind_unfold.
    destruct (writeAll _ _) as [[[]|e] w1]; [|done].
    by destruct (logger_info _ _ _ w1).
  - by destruct (logger_error _ _ _ _).
Qed.

(** X10. After any series of notifications [ctx.config] is the
    configuration of the last successful reload, or the one the
    series started with when there was none; runs that throw do not
    change that. The loader and the root directory of the context
    never change. *)
Theorem dispatch_keeps_last_loaded logger events s :
  config (ctx (dispatch logger events s)) = last_loaded events (config (ctx s)) ∧
  configLoader (ctx (dispatch logger events s)) = configLoader (ctx s) ∧
  rootDirectory (ctx (dispatch logger events s)) = rootDirectory (ctx s).
Proof.
  unfold dispatch, last_loaded. revert s.
  induction events as [|ev events IH]; intros s; [done|].
  cbn [foldl]. destruct (IH (onChange logger ev s).2) as (IH1&IH2&IH3).
  rewrite IH1, IH2, IH3, onChange_ctx. by destruct (result ev).
Qed.

(** X11. [run] hands nothing to a logger. [watch] hands it the one
    line [generated types], and only when it returns; the context it
    then returns holds the loader made for watching, the root
    directory and the configuration that loader returned, and
    [writeAll] has returned on it. *)
Theorem startup_logging rootDirectory mode logger w :
  console (run rootDirectory mode w).2 = console w ∧
  console (watch rootDirectory mode logger w).2 =
    console w
    ++ match (watch rootDirectory mode logger w).1, logger with
       | Ret _, Some _ => [info_line "generated types"]
       | _, _ => []
       end ∧
  ∀ c, (watch rootDirectory mode logger w).1 = Ret c →
       configLoader c = createConfigLoader rootDirectory mode true ∧
       Typegen.rootDirectory c = rootDirectory ∧
       getConfig (configLoader c) = Ok (config c) ∧
       (writeAll c w).1 = Ret ().
Proof.
  unfold run, watch, createContext.
  split_and!.
  - destruct (getConfig _) as [value|error]; [|done].
    rewrite bind_unfold. cbn. apply writeAll_console.
  - destruct (getConfig _) as [value|error]; [|cbn; by rewrite app_nil_r].
    rewrite bind_unfold. cbn [mret IO_ret]. rewrite bind_unfold.
    match goal with |- context [writeAll ?c w] =>
      pose proof (writeAll_console c w) as Hconsole;
      destruct (writeAll c w) as [[[]|e] w1] end.
    + rewrite bind_unfold. unfold logger_info.
      destruct (log_world logger Info (green "generated types")
                  {| timestamp := true; clear := true |} w1) as (w2&->&_&_&Hc).
      cbn in *. by rewrite Hc, Hconsole.
    + cbn in *. by rewrite Hconsole, app_nil_r.
  - intros c. destruct (getConfig _) as [value|error] eqn:Hload; [|done].
    rewrite bind_unfold. cbn [mret IO_ret]. rewrite bind_unfold.
    match goal with |- context [writeAll ?c w] =>
      destruct (writeAll c w) as [[[]|e] w1] eqn:Hpass end; [|done].
    rewrite bind_unfold. unfold logger_info.
    destruct (log_world logger Info (green "generated types")
                {| timestamp := true; clear := true |} w1) as (w2&->&_).
    cbn. intros [= <-]. cbn. by rewrite Hpass.
Qed.

End driver_facts.
(* ===================================================================== *)
(** * The further properties on the sample project *)
(* ===================================================================== *)

Section more_sample_runs.

Import Params Sample.

#[local] Existing Instance Sample.imports.

Lemma writeAll_frame_witness :
  disk (writeAll sample_ctx stale_world).2 !! ["app"; "package.json"]
  = disk stale_world !! ["app"; "package.json"].
Proof.
  apply writeAll_frame.
  - intros Hp. apply (bool_decide_pack _) in Hp. vm_compute in Hp. exact Hp.
  - apply Forall_forall. apply (bool_decide_unpack _). vm_compute. exact I.
Defined.


Lemma writeAll_output_files_witness :
  disk (writeAll sample_ctx stale_world).2 !! virtualPath sample_ctx
  = Some (File virtual).
Proof.
  apply (writeAll_output_files sample_ctx stale_world).
  vm_compute. reflexivity.
Defined.


Lemma writeAll_call_count_witness :
  length (trace (writeAll sample_ctx stale_world).2)
  = length (trace stale_world) + 2 * length (Object_values manifest) + 3.
Proof.
  apply (writeAll_call_count sample_ctx stale_world). vm_compute. reflexivity.
Defined.

Lemma register_throws_with_lineage_witness :
  let orphan := {| route_id := "admin/users"; route_parentId := Some "admin";
                   route_path := Some "users"; route_file := "admin/users.tsx" |} in
  let broken := {| configLoader := loader "/app" "development" false;
                   rootDirectory := "/app";
                   config := {| routes := [("root", root_route);
                                           ("admin/users", orphan)];
                                future := {| unstable_middleware := false |} |} |} in
  ∃ pre route post,
    [root_route; orphan] = pre ++ route :: post ∧
    contributes route ∧
    Route.lineage (routes (config broken)) route
    = Throw (Error "Route not found: admin") ∧
    ∀ r, r ∈ pre → contributes r →
         ∃ lineage, Route.lineage (routes (config broken)) r = Ret lineage.
Proof.
  intros orphan broken.
  exact (proj2 (register_throws_with_lineage broken)
           (Error "Route not found: admin") eq_refl).
Defined.

Lemma register_renders_params_witness :
  ∃ inner,
    alias_members (register_typeParams ["/users/:id?/*"]) !! 0
    = Some (tsPropertySignature (stringLiteral "/users/:id?/*")
              (tsTypeAnnotation (tsTypeLiteral inner)) None) ∧
    signature_key <$> inner = (parse "/users/:id?/*").*1 ∧
    signature_optional <$> inner
    = (λ entry, Some (negb entry.2)) <$> parse "/users/:id?/*" ∧
    Forall (λ member, signature_type member = tsStringKeyword) inner.
Proof.
  exact (register_renders_params ["/users/:id?/*"] 0 "/users/:id?/*" eq_refl).
Defined.

Lemma onChange_regenerates_witness :
  let s := {| ctx := sample_ctx; world := stale_world |} in
  let after :=
    onChange (Some ViteLogger)
      {| result := Ok other_config;
         configChanged := false; routeConfigChanged := true |} s in
  after.1 = (writeAll (assign_config other_config sample_ctx) stale_world).1 ∧
  ctx after.2 = assign_config other_config sample_ctx.
Proof.
  destruct (onChange_regenerates (Some ViteLogger) other_config false true
              {| ctx := sample_ctx; world := stale_world |} eq_refl)
    as (Hresult&Hctx&_).
  cbv zeta. split; [exact Hresult|exact Hctx].
Defined.

Lemma onChange_twice_witness :
  let ev := {| result := Ok other_config;
               configChanged := true; routeConfigChanged := false |} in
  let once := onChange None ev {| ctx := sample_ctx; world := stale_world |} in
  disk (world (onChange None ev once.2).2) = disk (world once.2).
Proof.
  cbv zeta.
  apply (onChange_twice None
           {| result := Ok other_config;
              configChanged := true; routeConfigChanged := false |}
           {| ctx := sample_ctx; world := stale_world |}).
Defined.

Lemma dispatch_keeps_last_loaded_witness :
  config (ctx (dispatch None
                 [ {| result := Ok other_config;
                      configChanged := true; routeConfigChanged := true |};
                   {| result := Err "Route config is invalid";
                      configChanged := false; routeConfigChanged := true |} ]
                 {| ctx := sample_ctx; world := stale_world |}))
  = other_config.
Proof.
  apply (dispatch_keeps_last_loaded None
           [ {| result := Ok other_config;
                configChanged := true; routeConfigChanged := true |};
             {| result := Err "Route config is invalid";
                configChanged := false; routeConfigChanged := true |} ]
           {| ctx := sample_ctx; world := stale_world |}).
Defined.

Lemma startup_logging_witness :
  configLoader sample_ctx = createConfigLoader "/app" "development" true ∧
  rootDirectory sample_ctx = "/app" ∧
  getConfig (configLoader sample_ctx) = Ok (config sample_ctx) ∧
  (writeAll sample_ctx stale_world).1 = Ret ().
Proof.
  apply (proj2 (proj2 (startup_logging "/app" "development" (Some ViteLogger)
                         stale_world)) sample_ctx).
  vm_compute. reflexivity.
Defined.

End more_sample_runs.
